(** * Spike events of libcaer: record codec, packet bookkeeping, traversal

    A shallow embedding of [include/events/spike.h].  The header is a set of
    [static inline] C functions and iteration macros over a packed record
    ([struct caer_spike_event]) and a packet made of a common header followed
    by an array of such records.

    Conventions of the embedding:
    - a C integer of width w is a [Z]; every conversion between integer types
      is written out ([U32T], [I32T], ...);
    - a function that writes through its pointer arguments returns the new
      values of the pointees; a function taking [const] pointers is a pure
      function of the pointees;
    - a call to [caerLogEHO] appends a [log_entry] to the list that the
      function returns next to its result;
    - a pointer to a record of a packet is the index of the record in the
      packet's array of events, [NULL] is [None];
    - an argument of a function is a value of its C type: the statements
      about a function bound its arguments by that type. *)

From Stdlib Require Import ZArith Bool Lia Sorted.
From stdpp Require Import base list strings.
From coqutil Require Import Z.bitblast.

Local Open Scope Z_scope.

(** ** Fixed-width integers *)

Module CInt.

Definition INT32_MAX : Z := 0x7FFFFFFF.
Definition INT32_MIN : Z := - 0x80000000.

(** Conversions to the unsigned types reduce modulo 2^w; conversions to the
    signed types take the two's complement representative. *)
Definition U8T (x : Z) : Z := x mod 2 ^ 8.
Definition U32T (x : Z) : Z := x mod 2 ^ 32.
Definition U64T (x : Z) : Z := x mod 2 ^ 64.
Definition I32T (x : Z) : Z := (x + 2 ^ 31) mod 2 ^ 32 - 2 ^ 31.
Definition I64T (x : Z) : Z := (x + 2 ^ 63) mod 2 ^ 64 - 2 ^ 63.

Definition is_uint32 (x : Z) : Prop := 0 <= x < 2 ^ 32.
Definition is_int32 (x : Z) : Prop := - 2 ^ 31 <= x < 2 ^ 31.
Definition is_int64 (x : Z) : Prop := - 2 ^ 63 <= x < 2 ^ 63.

(** Operators of [uint32_t] and [uint64_t]. *)
Definition shl32 (x n : Z) : Z := U32T (Z.shiftl x n).
Definition not32 (x : Z) : Z := U32T (Z.lnot x).
Definition shl64 (x n : Z) : Z := U64T (Z.shiftl x n).

(** The byte swap of a 32-bit word. *)
Definition bswap32 (x : Z) : Z :=
  Z.lor (Z.lor (Z.lor (Z.shiftl (Z.land x 0xFF) 24)
                      (Z.shiftl (Z.land (Z.shiftr x 8) 0xFF) 16))
               (Z.shiftl (Z.land (Z.shiftr x 16) 0xFF) 8))
        (Z.land (Z.shiftr x 24) 0xFF).

(** The byte order of the host the library is compiled for. *)
Inductive endianness : Set := LittleEndian | BigEndian.

(** [htole32] and [le32toh] of <endian.h>: the identity on a little-endian
    host, the byte swap on a big-endian one. *)
Definition htole32 (host : endianness) (x : Z) : Z :=
  match host with
  | LittleEndian => U32T x
  | BigEndian => bswap32 (U32T x)
  end.

Definition le32toh (host : endianness) (x : Z) : Z :=
  match host with
  | LittleEndian => U32T x
  | BigEndian => bswap32 (U32T x)
  end.

End CInt.
Import CInt.

(** ** common.h: bit-field macros, validity mark, logging, packet header *)

Module Common.

(** Modelled from the spec: the constants of [common.h], which is not part
    of the sources at hand.  Bit 0 of the first word of a record is its
    validity mark, and the overflow counter of a packet is shifted by 31,
    the number of value bits of the 32-bit timestamp. *)
Definition VALID_MARK_SHIFT : Z := 0.
Definition VALID_MARK_MASK : Z := 0x00000001.
Definition TS_OVERFLOW_SHIFT : Z := 31.

Section Macros.
Variable host : endianness.

(** Modelled from the spec: the bit-field macros of [common.h].  A record
    is stored little-endian whatever the host is; a getter reads the
    masked bit range of the decoded word, a write ors the masked value
    into its range (a value out of range is truncated by the mask), and a
    clear removes the whole range. *)
Definition GET_NUMBITS32 (VAR SHIFT MASK : Z) : Z :=
  Z.land (Z.shiftr (le32toh host VAR) SHIFT) MASK.

Definition SET_NUMBITS32 (VAR SHIFT MASK VALUE : Z) : Z :=
  Z.lor VAR (htole32 host (shl32 (Z.land (U32T VALUE) MASK) SHIFT)).

Definition CLEAR_NUMBITS32 (VAR SHIFT MASK : Z) : Z :=
  Z.land VAR (htole32 host (not32 (shl32 (U32T MASK) SHIFT))).
End Macros.

(** Modelled from the spec: the logging collaborator.  [caerLogEHO] takes
    a severity, the name of a sub-system and a printf-style message; an
    entry keeps them with the integer arguments of the message. *)
Inductive caer_log_level : Set :=
| CAER_LOG_EMERGENCY | CAER_LOG_ALERT | CAER_LOG_CRITICAL | CAER_LOG_ERROR
| CAER_LOG_WARNING | CAER_LOG_NOTICE | CAER_LOG_INFO | CAER_LOG_DEBUG.

Record log_entry : Set := caerLogEHO {
  logLevel : caer_log_level;
  subSystem : string;
  format : string;
  arguments : list Z
}.

(** A result together with what the call has logged. *)
Definition logged (A : Type) : Type := (A * list log_entry)%type.

Definition is_critical (e : log_entry) : bool :=
  match logLevel e with CAER_LOG_CRITICAL => true | _ => false end.

(** Modelled from the spec: the common packet header, an external
    collaborator that holds the type tag of the events, the id of their
    source, the fixed capacity, the current number of events, the current
    number of valid events and the timestamp overflow counter.  Its fields
    are kept decoded, as the [int32_t] and [int16_t] values the accessors
    of [common.h] take and return. *)
Record caer_event_packet_header : Set := {
  eventType : Z;
  eventSource : Z;
  eventTSOverflow : Z;
  eventCapacity : Z;
  eventNumber : Z;
  eventValid : Z
}.

Definition caerEventPacketHeaderGetEventType (header : caer_event_packet_header) : Z :=
  eventType header.
Definition caerEventPacketHeaderGetEventTSOverflow (header : caer_event_packet_header) : Z :=
  eventTSOverflow header.
Definition caerEventPacketHeaderGetEventCapacity (header : caer_event_packet_header) : Z :=
  eventCapacity header.
Definition caerEventPacketHeaderGetEventNumber (header : caer_event_packet_header) : Z :=
  eventNumber header.
Definition caerEventPacketHeaderGetEventValid (header : caer_event_packet_header) : Z :=
  eventValid header.

Definition caerEventPacketHeaderSetEventNumber
    (header : caer_event_packet_header) (n : Z) : caer_event_packet_header :=
  {| eventType := eventType header; eventSource := eventSource header;
     eventTSOverflow := eventTSOverflow header;
     eventCapacity := eventCapacity header;
     eventNumber := n; eventValid := eventValid header |}.

Definition caerEventPacketHeaderSetEventValid
    (header : caer_event_packet_header) (n : Z) : caer_event_packet_header :=
  {| eventType := eventType header; eventSource := eventSource header;
     eventTSOverflow := eventTSOverflow header;
     eventCapacity := eventCapacity header;
     eventNumber := eventNumber header; eventValid := n |}.

End Common.
Import Common.

(** ** spike.h *)

Module Spike.

Definition SPIKE_SOURCE_CORE_ID_SHIFT : Z := 1.
Definition SPIKE_SOURCE_CORE_ID_MASK : Z := 0x0000001F.
Definition SPIKE_CHIP_ID_SHIFT : Z := 6.
Definition SPIKE_CHIP_ID_MASK : Z := 0x0000003F.
Definition SPIKE_NEURON_ID_SHIFT : Z := 12.
Definition SPIKE_NEURON_ID_MASK : Z := 0x000FFFFF.

(** [struct caer_spike_event]: [data] is a [uint32_t], [timestamp] an
    [int32_t]; both hold the little-endian pattern as the host reads it. *)
Record caer_spike_event : Set := {
  data : Z;
  timestamp : Z
}.

(** [struct caer_spike_event_packet]: the common header and the array of
    events that follows it in the same block. *)
Record caer_spike_event_packet : Set := {
  packetHeader : caer_event_packet_header;
  events : list caer_spike_event
}.

(** [caerSpikeEvent]: a pointer into the array of a packet, or [NULL]. *)
Definition caerSpikeEvent : Set := option nat.

Definition subsystem : string := "Spike Event"%string.

Section Codec.
Variable host : endianness.

Definition caerSpikeEventPacketGetEvent
    (packet : caer_spike_event_packet) (n : Z) : logged caerSpikeEvent :=
  if (n <? 0) || (n >=? caerEventPacketHeaderGetEventCapacity (packetHeader packet)) then
    (None,
     [caerLogEHO CAER_LOG_CRITICAL subsystem
        "Called caerSpikeEventPacketGetEvent() with invalid event offset %i, while maximum allowed value is %i."%string
        [n; I32T (caerEventPacketHeaderGetEventCapacity (packetHeader packet) - 1)]])
  else (Some (Z.to_nat n), []).

Definition caerSpikeEventPacketGetEventConst
    (packet : caer_spike_event_packet) (n : Z) : logged caerSpikeEvent :=
  if (n <? 0) || (n >=? caerEventPacketHeaderGetEventCapacity (packetHeader packet)) then
    (None,
     [caerLogEHO CAER_LOG_CRITICAL subsystem
        "Called caerSpikeEventPacketGetEventConst() with invalid event offset %i, while maximum allowed value is %i."%string
        [n; I32T (caerEventPacketHeaderGetEventCapacity (packetHeader packet) - 1)]])
  else (Some (Z.to_nat n), []).

Definition caerSpikeEventGetTimestamp (event : caer_spike_event) : Z :=
  I32T (le32toh host (timestamp event)).

Definition caerSpikeEventGetTimestamp64
    (event : caer_spike_event) (packet : caer_spike_event_packet) : Z :=
  I64T (Z.lor
          (shl64 (U64T (caerEventPacketHeaderGetEventTSOverflow (packetHeader packet)))
                 TS_OVERFLOW_SHIFT)
          (U64T (caerSpikeEventGetTimestamp event))).

Definition caerSpikeEventSetTimestamp
    (event : caer_spike_event) (ts : Z) : logged caer_spike_event :=
  if ts <? 0 then
    (event,
     [caerLogEHO CAER_LOG_CRITICAL subsystem
        "Called caerSpikeEventSetTimestamp() with negative value!"%string []])
  else
    ({| data := data event; timestamp := I32T (htole32 host ts) |}, []).

Definition caerSpikeEventIsValid (event : caer_spike_event) : bool :=
  negb (GET_NUMBITS32 host (data event) VALID_MARK_SHIFT VALID_MARK_MASK =? 0).

(** The function writes [event->data] and the header of the packet: it
    takes and returns both.  The sums are those of [int]. *)
Definition caerSpikeEventValidate
    (event : caer_spike_event) (header : caer_event_packet_header)
    : logged (caer_spike_event * caer_event_packet_header) :=
  if negb (caerSpikeEventIsValid event) then
    let event' :=
      {| data := SET_NUMBITS32 host (data event) VALID_MARK_SHIFT VALID_MARK_MASK 1;
         timestamp := timestamp event |} in
    let header' :=
      caerEventPacketHeaderSetEventNumber header
        (I32T (caerEventPacketHeaderGetEventNumber header + 1)) in
    let header'' :=
      caerEventPacketHeaderSetEventValid header'
        (I32T (caerEventPacketHeaderGetEventValid header' + 1)) in
    ((event', header''), [])
  else
    ((event, header),
     [caerLogEHO CAER_LOG_CRITICAL subsystem
        "Called caerSpikeEventValidate() on already valid event."%string []]).

Definition caerSpikeEventInvalidate
    (event : caer_spike_event) (header : caer_event_packet_header)
    : logged (caer_spike_event * caer_event_packet_header) :=
  if caerSpikeEventIsValid event then
    let event' :=
      {| data := CLEAR_NUMBITS32 host (data event) VALID_MARK_SHIFT VALID_MARK_MASK;
         timestamp := timestamp event |} in
    let header' :=
      caerEventPacketHeaderSetEventValid header
        (I32T (caerEventPacketHeaderGetEventValid header - 1)) in
    ((event', header'), [])
  else
    ((event, header),
     [caerLogEHO CAER_LOG_CRITICAL subsystem
        "Called caerSpikeEventInvalidate() on already invalid event."%string []]).

Definition caerSpikeEventGetSourceCoreID (event : caer_spike_event) : Z :=
  U8T (GET_NUMBITS32 host (data event) SPIKE_SOURCE_CORE_ID_SHIFT SPIKE_SOURCE_CORE_ID_MASK).

Definition caerSpikeEventSetSourceCoreID
    (event : caer_spike_event) (sourceCoreID : Z) : caer_spike_event :=
  let cleared :=
    CLEAR_NUMBITS32 host (data event) SPIKE_SOURCE_CORE_ID_SHIFT SPIKE_SOURCE_CORE_ID_MASK in
  {| data := SET_NUMBITS32 host cleared SPIKE_SOURCE_CORE_ID_SHIFT
               SPIKE_SOURCE_CORE_ID_MASK sourceCoreID;
     timestamp := timestamp event |}.

Definition caerSpikeEventGetChipID (event : caer_spike_event) : Z :=
  U8T (GET_NUMBITS32 host (data event) SPIKE_CHIP_ID_SHIFT SPIKE_CHIP_ID_MASK).

Definition caerSpikeEventSetChipID
    (event : caer_spike_event) (chipID : Z) : caer_spike_event :=
  let cleared :=
    CLEAR_NUMBITS32 host (data event) SPIKE_CHIP_ID_SHIFT SPIKE_CHIP_ID_MASK in
  {| data := SET_NUMBITS32 host cleared SPIKE_CHIP_ID_SHIFT SPIKE_CHIP_ID_MASK chipID;
     timestamp := timestamp event |}.

Definition caerSpikeEventGetNeuronID (event : caer_spike_event) : Z :=
  U32T (GET_NUMBITS32 host (data event) SPIKE_NEURON_ID_SHIFT SPIKE_NEURON_ID_MASK).

Definition caerSpikeEventSetNeuronID
    (event : caer_spike_event) (neuronID : Z) : caer_spike_event :=
  let cleared :=
    CLEAR_NUMBITS32 host (data event) SPIKE_NEURON_ID_SHIFT SPIKE_NEURON_ID_MASK in
  {| data := SET_NUMBITS32 host cleared SPIKE_NEURON_ID_SHIFT SPIKE_NEURON_ID_MASK
               neuronID;
     timestamp := timestamp event |}.

End Codec.

(** *** Calls on the records of a packet *)

(** The two operations of the bookkeeping, with the index of the record
    they are called on. *)
Inductive bookkeeping_op : Set :=
| Validate (event : nat)
| Invalidate (event : nat).

(** How a loop ends: normally, on the dereference of [NULL], or not within
    the rounds it is given. *)
Inductive outcome (S : Type) : Type :=
| Finished (s : S)
| Fault
| OutOfFuel.
Arguments Finished {S} s.
Arguments Fault {S}.
Arguments OutOfFuel {S}.

Section Packet.
Variable host : endianness.

(** [caerSpikeEventValidate (event, packet)] is called with a pointer to a
    record of [packet]: the record is read from the array, and the new
    record is written back to its place.  A pointer that is not within the
    array has no record to read: the call has no defined result. *)

Definition call_on_event
    (f : caer_spike_event -> caer_event_packet_header ->
         logged (caer_spike_event * caer_event_packet_header))
    (event : nat) (packet : caer_spike_event_packet)
    : option (logged caer_spike_event_packet) :=
  match events packet !! event with
  | Some e =>
      let '((e', header'), msgs) := f e (packetHeader packet) in
      Some ({| packetHeader := header'; events := <[event := e']> (events packet) |}, msgs)
  | None => None
  end.

Definition run_op (op : bookkeeping_op) (packet : caer_spike_event_packet)
    : option (logged caer_spike_event_packet) :=
  match op with
  | Validate i => call_on_event (caerSpikeEventValidate host) i packet
  | Invalidate i => call_on_event (caerSpikeEventInvalidate host) i packet
  end.

(** A sequence of operations, one after the other; the messages of the
    calls are collected in order. *)
Fixpoint run_ops (ops : list bookkeeping_op) (packet : caer_spike_event_packet)
    : option (logged caer_spike_event_packet) :=
  match ops with
  | [] => Some (packet, [])
  | op :: ops' =>
      match run_op op packet with
      | Some (packet', msgs) =>
          match run_ops ops' packet' with
          | Some (packet'', msgs') => Some (packet'', msgs ++ msgs')
          | None => None
          end
      | None => None
      end
  end.

(** *** Iteration macros

    [CAER_SPIKE_ITERATOR_VALID_START (packet) body
    CAER_SPIKE_ITERATOR_VALID_END] is a [for] loop around [body], which
    sees the counter and the element and may change the packet and the
    variables of the caller (a state of type [A]).  [fuel] bounds the
    number of evaluations of the loop condition.  The element of an index
    that is out of bounds is [NULL], and [caerSpikeEventIsValid]
    dereferences it: the loop has no defined result then. *)
Section Iterators.
Context {A : Type}.
Variable body : Z -> nat -> caer_spike_event_packet * A -> caer_spike_event_packet * A.

(** One round of the loop body of the macro: [None] is the fault. *)
Definition iterator_valid_body
    (caerSpikeIteratorCounter : Z) (st : caer_spike_event_packet * A)
    : option (caer_spike_event_packet * A) :=
  match fst (caerSpikeEventPacketGetEvent (fst st) caerSpikeIteratorCounter) with
  | Some caerSpikeIteratorElement =>
      match events (fst st) !! caerSpikeIteratorElement with
      | Some e =>
          if negb (caerSpikeEventIsValid host e) then Some st
          else Some (body caerSpikeIteratorCounter caerSpikeIteratorElement st)
      | None => None
      end
  | None => None
  end.

Fixpoint iterator_valid_loop
    (fuel : nat) (caerSpikeIteratorCounter : Z) (st : caer_spike_event_packet * A)
    : outcome (caer_spike_event_packet * A) :=
  match fuel with
  | O => OutOfFuel
  | S fuel' =>
      if caerSpikeIteratorCounter
           <? caerEventPacketHeaderGetEventNumber (packetHeader (fst st)) then
        match iterator_valid_body caerSpikeIteratorCounter st with
        | Some st' => iterator_valid_loop fuel' (I32T (caerSpikeIteratorCounter + 1)) st'
        | None => Fault
        end
      else Finished st
  end.

Definition CAER_SPIKE_ITERATOR_VALID
    (fuel : nat) (packet : caer_spike_event_packet) (a : A)
    : outcome (caer_spike_event_packet * A) :=
  iterator_valid_loop fuel 0 (packet, a).

Fixpoint reverse_iterator_valid_loop
    (fuel : nat) (caerSpikeIteratorCounter : Z) (st : caer_spike_event_packet * A)
    : outcome (caer_spike_event_packet * A) :=
  match fuel with
  | O => OutOfFuel
  | S fuel' =>
      if caerSpikeIteratorCounter >=? 0 then
        match iterator_valid_body caerSpikeIteratorCounter st with
        | Some st' =>
            reverse_iterator_valid_loop fuel' (I32T (caerSpikeIteratorCounter - 1)) st'
        | None => Fault
        end
      else Finished st
  end.

Definition CAER_SPIKE_REVERSE_ITERATOR_VALID
    (fuel : nat) (packet : caer_spike_event_packet) (a : A)
    : outcome (caer_spike_event_packet * A) :=
  reverse_iterator_valid_loop fuel
    (I32T (caerEventPacketHeaderGetEventNumber (packetHeader packet) - 1)) (packet, a).
End Iterators.

(** [CAER_SPIKE_ITERATOR_ALL_START] and [CAER_SPIKE_REVERSE_ITERATOR_ALL_START]
    hand every element to the body, also the [NULL] of an index that is out
    of bounds, with the message that the accessor has logged for it.  [get]
    is the accessor of the macro: [caerSpikeEventPacketGetEvent], or
    [caerSpikeEventPacketGetEventConst] in the const macros. *)
Section IteratorsAll.
Context {A : Type}.
Variable get : caer_spike_event_packet -> Z -> logged caerSpikeEvent.
Variable body :
  Z -> caerSpikeEvent -> caer_spike_event_packet * A -> caer_spike_event_packet * A.

Fixpoint iterator_all_loop
    (fuel : nat) (caerSpikeIteratorCounter : Z)
    (st : caer_spike_event_packet * A) (msgs : list log_entry)
    : outcome ((caer_spike_event_packet * A) * list log_entry) :=
  match fuel with
  | O => OutOfFuel
  | S fuel' =>
      if caerSpikeIteratorCounter
           <? caerEventPacketHeaderGetEventNumber (packetHeader (fst st)) then
        let '(caerSpikeIteratorElement, logged_now) :=
          get (fst st) caerSpikeIteratorCounter in
        iterator_all_loop fuel' (I32T (caerSpikeIteratorCounter + 1))
          (body caerSpikeIteratorCounter caerSpikeIteratorElement st)
          (msgs ++ logged_now)
      else Finished (st, msgs)
  end.

Fixpoint reverse_iterator_all_loop
    (fuel : nat) (caerSpikeIteratorCounter : Z)
    (st : caer_spike_event_packet * A) (msgs : list log_entry)
    : outcome ((caer_spike_event_packet * A) * list log_entry) :=
  match fuel with
  | O => OutOfFuel
  | S fuel' =>
      if caerSpikeIteratorCounter >=? 0 then
        let '(caerSpikeIteratorElement, logged_now) :=
          get (fst st) caerSpikeIteratorCounter in
        reverse_iterator_all_loop fuel' (I32T (caerSpikeIteratorCounter - 1))
          (body caerSpikeIteratorCounter caerSpikeIteratorElement st)
          (msgs ++ logged_now)
      else Finished (st, msgs)
  end.
End IteratorsAll.

Definition CAER_SPIKE_ITERATOR_ALL {A : Type}
    (body : Z -> caerSpikeEvent -> caer_spike_event_packet * A ->
            caer_spike_event_packet * A)
    (fuel : nat) (packet : caer_spike_event_packet) (a : A)
    : outcome ((caer_spike_event_packet * A) * list log_entry) :=
  iterator_all_loop caerSpikeEventPacketGetEvent body fuel 0 (packet, a) [].

Definition CAER_SPIKE_CONST_ITERATOR_ALL {A : Type}
    (body : Z -> caerSpikeEvent -> caer_spike_event_packet * A ->
            caer_spike_event_packet * A)
    (fuel : nat) (packet : caer_spike_event_packet) (a : A)
    : outcome ((caer_spike_event_packet * A) * list log_entry) :=
  iterator_all_loop caerSpikeEventPacketGetEventConst body fuel 0 (packet, a) [].

Definition CAER_SPIKE_REVERSE_ITERATOR_ALL {A : Type}
    (body : Z -> caerSpikeEvent -> caer_spike_event_packet * A ->
            caer_spike_event_packet * A)
    (fuel : nat) (packet : caer_spike_event_packet) (a : A)
    : outcome ((caer_spike_event_packet * A) * list log_entry) :=
  reverse_iterator_all_loop caerSpikeEventPacketGetEvent body fuel
    (I32T (caerEventPacketHeaderGetEventNumber (packetHeader packet) - 1)) (packet, a) [].

Definition CAER_SPIKE_CONST_REVERSE_ITERATOR_ALL {A : Type}
    (body : Z -> caerSpikeEvent -> caer_spike_event_packet * A ->
            caer_spike_event_packet * A)
    (fuel : nat) (packet : caer_spike_event_packet) (a : A)
    : outcome ((caer_spike_event_packet * A) * list log_entry) :=
  reverse_iterator_all_loop caerSpikeEventPacketGetEventConst body fuel
    (I32T (caerEventPacketHeaderGetEventNumber (packetHeader packet) - 1)) (packet, a) [].

End Packet.

End Spike.
Import Spike.

(** ** The data model of the specification *)

Module Model.

Section Predicates.
Variable host : endianness.

(** The field word of a record as it is on the wire. *)
Definition field_word (event : caer_spike_event) : Z :=
  le32toh host (data event).

(** The validity bit of a record, 0 or 1. *)
Definition validity_bit (event : caer_spike_event) : Z :=
  if caerSpikeEventIsValid host event then 1 else 0.

(** The sum of the validity bits of the first [n] records. *)
Definition valid_sum (n : nat) (evs : list caer_spike_event) : Z :=
  foldr (fun e acc => validity_bit e + acc) 0 (take n evs).

Definition is_valid_at (packet : caer_spike_event_packet) (i : nat) : bool :=
  match events packet !! i with
  | Some e => caerSpikeEventIsValid host e
  | None => false
  end.

(** A packet is a header followed by [eventCapacity] records, and the
    capacity is an [int32_t]. *)
Definition packet_wf (packet : caer_spike_event_packet) : Prop :=
  Z.of_nat (length (events packet)) = eventCapacity (packetHeader packet) /\
  eventCapacity (packetHeader packet) <= INT32_MAX.

(** The bookkeeping invariant: the counters are ordered, and the number
    of valid events is the sum of the validity bits of the first
    [eventNumber] records. *)
Definition bookkeeping_invariant (packet : caer_spike_event_packet) : Prop :=
  let header := packetHeader packet in
  0 <= eventValid header /\
  eventValid header <= eventNumber header /\
  eventNumber header <= eventCapacity header /\
  eventValid header = valid_sum (Z.to_nat (eventNumber header)) (events packet).

(** The records from [eventNumber] on are invalid. *)
Definition unused_invalid (packet : caer_spike_event_packet) : Prop :=
  Forall (fun e => caerSpikeEventIsValid host e = false)
         (drop (Z.to_nat (eventNumber (packetHeader packet))) (events packet)).

(** The discipline under which the bookkeeping is exact: an operation is
    called on a record of the packet, and a record that is not valid is
    validated only while there is room ([eventNumber] below the
    capacity) and only at an index up to [eventNumber]. *)
Definition disciplined (op : bookkeeping_op) (packet : caer_spike_event_packet) : Prop :=
  match op with
  | Validate i =>
      (i < length (events packet))%nat /\
      (is_valid_at packet i = false ->
       Z.of_nat i <= eventNumber (packetHeader packet) /\
       eventNumber (packetHeader packet) < eventCapacity (packetHeader packet))
  | Invalidate i => (i < length (events packet))%nat
  end.

Fixpoint disciplined_run (ops : list bookkeeping_op) (packet : caer_spike_event_packet)
    : Prop :=
  match ops with
  | [] => True
  | op :: ops' =>
      disciplined op packet /\
      match run_op host op packet with
      | Some (packet', _) => disciplined_run ops' packet'
      | None => False
      end
  end.

(** The indices that a traversal of the valid events visits, ascending. *)
Definition valid_indices (packet : caer_spike_event_packet) : list Z :=
  filter (fun i => is_valid_at packet (Z.to_nat i) = true)
         (seqZ 0 (eventNumber (packetHeader packet))).

(** 64-bit timestamp: the overflow counter shifted and or-ed with the
    32-bit timestamp, both operands taken as unsigned 64-bit values and
    the result as a signed one. *)
Definition timestamp64_spec (overflowCounter timestamp32 : Z) : Z :=
  I64T (Z.lor (Z.shiftl (U64T overflowCounter) 31) (U64T timestamp32)).

End Predicates.

(** A loop body that only records the index it is given. *)
Definition visit (i : Z) (element : nat)
    (st : caer_spike_event_packet * list Z) : caer_spike_event_packet * list Z :=
  (fst st, snd st ++ [i]).

(** A zeroed record, and a packet as it is after its creation: every
    record zeroed, no event counted. *)
Definition zero_event : caer_spike_event := {| data := 0; timestamp := 0 |}.

Definition zeroed_packet (type source tsOverflow : Z) (capacity : nat)
    : caer_spike_event_packet :=
  {| packetHeader :=
       {| eventType := type; eventSource := source; eventTSOverflow := tsOverflow;
          eventCapacity := Z.of_nat capacity; eventNumber := 0; eventValid := 0 |};
     events := replicate capacity zero_event |}.

(** *** Vocabulary of the statements *)

Definition negative_timestamp_message : log_entry :=
  caerLogEHO CAER_LOG_CRITICAL "Spike Event"
    "Called caerSpikeEventSetTimestamp() with negative value!" [].

(** What a call that changes the record does to it. *)
Definition marked (host : endianness) (event : caer_spike_event) : caer_spike_event :=
  {| data := SET_NUMBITS32 host (data event) VALID_MARK_SHIFT VALID_MARK_MASK 1;
     timestamp := timestamp event |}.

Definition unmarked (host : endianness) (event : caer_spike_event) : caer_spike_event :=
  {| data := CLEAR_NUMBITS32 host (data event) VALID_MARK_SHIFT VALID_MARK_MASK;
     timestamp := timestamp event |}.

(** Same sub-fields, same timestamp, same field word but for bit 0. *)
Definition same_but_validity (host : endianness) (e e' : caer_spike_event) : Prop :=
  (forall b : Z, 1 <= b ->
     Z.testbit (field_word host e') b = Z.testbit (field_word host e) b) /\
  caerSpikeEventGetSourceCoreID host e' = caerSpikeEventGetSourceCoreID host e /\
  caerSpikeEventGetChipID host e' = caerSpikeEventGetChipID host e /\
  caerSpikeEventGetNeuronID host e' = caerSpikeEventGetNeuronID host e /\
  timestamp e' = timestamp e /\
  caerSpikeEventGetTimestamp host e' = caerSpikeEventGetTimestamp host e.

Definition already_valid_message : log_entry :=
  caerLogEHO CAER_LOG_CRITICAL "Spike Event"
    "Called caerSpikeEventValidate() on already valid event." [].

Definition already_invalid_message : log_entry :=
  caerLogEHO CAER_LOG_CRITICAL "Spike Event"
    "Called caerSpikeEventInvalidate() on already invalid event." [].

(** The header after a call that counts one more event. *)
Definition counted (header : caer_event_packet_header) : caer_event_packet_header :=
  {| eventType := eventType header; eventSource := eventSource header;
     eventTSOverflow := eventTSOverflow header; eventCapacity := eventCapacity header;
     eventNumber := I32T (eventNumber header + 1);
     eventValid := I32T (eventValid header + 1) |}.

Definition discounted (header : caer_event_packet_header) : caer_event_packet_header :=
  {| eventType := eventType header; eventSource := eventSource header;
     eventTSOverflow := eventTSOverflow header; eventCapacity := eventCapacity header;
     eventNumber := eventNumber header;
     eventValid := I32T (eventValid header - 1) |}.

Definition same_fixed_fields (h h' : caer_event_packet_header) : Prop :=
  eventType h' = eventType h /\ eventSource h' = eventSource h /\
  eventTSOverflow h' = eventTSOverflow h /\ eventCapacity h' = eventCapacity h.

Definition op_on (op : bookkeeping_op) : nat :=
  match op with Validate i => i | Invalidate i => i end.

Definition out_of_bounds_message (packet : caer_spike_event_packet) (n : Z) : log_entry :=
  caerLogEHO CAER_LOG_CRITICAL "Spike Event"
    "Called caerSpikeEventPacketGetEvent() with invalid event offset %i, while maximum allowed value is %i."
    [n; I32T (eventCapacity (packetHeader packet) - 1)].

(** The three properties that a packet has between two operations. *)
Definition consistent (host : endianness) (packet : caer_spike_event_packet) : Prop :=
  packet_wf packet /\ bookkeeping_invariant host packet /\ unused_invalid host packet.

(** What a loop body makes of the variables of the caller at index [i]. *)
Definition at_index {A : Type}
    (body : Z -> nat -> caer_spike_event_packet * A -> caer_spike_event_packet * A)
    (packet : caer_spike_event_packet) (a : A) (i : Z) : A :=
  snd (body i (Z.to_nat i) (packet, a)).

(** The valid indices among the [n] indices from [c] on. *)
Definition valid_from (host : endianness) (packet : caer_spike_event_packet) (c n : Z)
    : list Z :=
  filter (fun i => is_valid_at host packet (Z.to_nat i) = true) (seqZ c n).

(** *** Vocabulary of the traversals of all events *)

(** What a loop body makes of the variables of the caller at index [i],
    given the element that the accessor [get] returns for [i]. *)
Definition at_element {A : Type}
    (get : caer_spike_event_packet -> Z -> logged caerSpikeEvent)
    (body : Z -> caerSpikeEvent -> caer_spike_event_packet * A ->
            caer_spike_event_packet * A)
    (packet : caer_spike_event_packet) (a : A) (i : Z) : A :=
  snd (body i (fst (get packet i)) (packet, a)).

(** The messages that the accessor logs for the indices of a list. *)
Definition messages_at
    (get : caer_spike_event_packet -> Z -> logged caerSpikeEvent)
    (packet : caer_spike_event_packet) (indices : list Z) : list log_entry :=
  concat ((fun i => snd (get packet i)) <$> indices).

(** A loop body that only records the index and the element it is given. *)
Definition visit_element (i : Z) (element : caerSpikeEvent)
    (st : caer_spike_event_packet * list (Z * caerSpikeEvent))
    : caer_spike_event_packet * list (Z * caerSpikeEvent) :=
  (fst st, snd st ++ [(i, element)]).

(** A loop body that calls [caerSpikeEventInvalidate] on the element, and
    keeps what the call logs. *)
Definition invalidate_visited (host : endianness) (i : Z) (element : nat)
    (st : caer_spike_event_packet * list log_entry)
    : caer_spike_event_packet * list log_entry :=
  match run_op host (Invalidate element) (fst st) with
  | Some (packet', msgs) => (packet', snd st ++ msgs)
  | None => st
  end.

End Model.
Import Model.

(** ** Bit-level facts *)

(** Case analysis on every comparison of the goal. *)
Ltac split_ltb :=
  repeat match goal with
         | |- context [Z.leb ?x ?y] => destruct (Z.leb_spec x y)
         | |- context [Z.ltb ?x ?y] => destruct (Z.ltb_spec x y)
         end.

Lemma mask8_ones : 0xFF = Z.ones 8.
Proof. reflexivity. Qed.

Lemma testbit_above (w x i : Z) :
  0 <= w -> 0 <= x < 2 ^ w -> w <= i -> Z.testbit x i = false.
Proof.
  intros Hw Hx Hi.
  rewrite <- (Z.mod_small x (2 ^ w)) by assumption.
  apply Z.mod_pow2_bits_high. lia.
Qed.

Lemma U32T_testbit (x i : Z) :
  Z.testbit (U32T x) i = (i <? 32) && Z.testbit x i.
Proof.
  unfold U32T. destruct (Z.ltb_spec i 32).
  - destruct (Z.ltb_spec i 0).
    + now rewrite !Z.testbit_neg_r.
    + now rewrite Z.mod_pow2_bits_low.
  - now rewrite Z.mod_pow2_bits_high by lia.
Qed.

Lemma U32T_range (x : Z) : is_uint32 (U32T x).
Proof. unfold is_uint32, U32T. apply Z.mod_pos_bound. lia. Qed.

Lemma U32T_small (x : Z) : is_uint32 x -> U32T x = x.
Proof. unfold is_uint32, U32T. intros. now apply Z.mod_small. Qed.

Lemma bswap32_testbit (x i : Z) :
  Z.testbit (bswap32 x) i =
    if i <? 0 then false
    else if i <? 8 then Z.testbit x (i + 24)
    else if i <? 16 then Z.testbit x (i + 8)
    else if i <? 24 then Z.testbit x (i - 8)
    else if i <? 32 then Z.testbit x (i - 24)
    else false.
Proof.
  unfold bswap32. rewrite !mask8_ones.
  destruct (Z.ltb_spec i 0); [now rewrite Z.testbit_neg_r|].
  Z.bitblast_core.
Qed.

Lemma bswap32_range (x : Z) : is_uint32 (bswap32 x).
Proof.
  assert (H : bswap32 x = U32T (bswap32 x)).
  { apply Z.bits_inj'. intros i Hi.
    rewrite U32T_testbit, bswap32_testbit.
    split_ltb; try reflexivity; lia. }
  rewrite H. apply U32T_range.
Qed.

Lemma bswap32_involutive (x : Z) : is_uint32 x -> bswap32 (bswap32 x) = x.
Proof.
  intros Hx. apply Z.bits_inj'. intros i Hi.
  rewrite bswap32_testbit. split_ltb; try lia.
  1-4: rewrite bswap32_testbit; split_ltb; try lia; f_equal; lia.
  symmetry. apply (testbit_above 32); [lia | exact Hx | lia].
Qed.

Lemma bswap32_lor (a b : Z) : bswap32 (Z.lor a b) = Z.lor (bswap32 a) (bswap32 b).
Proof.
  apply Z.bits_inj'. intros i Hi.
  rewrite Z.lor_spec, !bswap32_testbit.
  split_ltb; try reflexivity; apply Z.lor_spec.
Qed.

Lemma bswap32_land (a b : Z) : bswap32 (Z.land a b) = Z.land (bswap32 a) (bswap32 b).
Proof.
  apply Z.bits_inj'. intros i Hi.
  rewrite Z.land_spec, !bswap32_testbit.
  split_ltb; try reflexivity; apply Z.land_spec.
Qed.

Lemma U32T_lor (a b : Z) : U32T (Z.lor a b) = Z.lor (U32T a) (U32T b).
Proof.
  apply Z.bits_inj'. intros i Hi.
  rewrite Z.lor_spec, !U32T_testbit, Z.lor_spec.
  destruct (i <? 32); reflexivity.
Qed.

Lemma U32T_land (a b : Z) : U32T (Z.land a b) = Z.land (U32T a) (U32T b).
Proof.
  apply Z.bits_inj'. intros i Hi.
  rewrite Z.land_spec, !U32T_testbit, Z.land_spec.
  destruct (i <? 32); [reflexivity|]. simpl. reflexivity.
Qed.

Lemma U32T_idemp (x : Z) : U32T (U32T x) = U32T x.
Proof. apply U32T_small, U32T_range. Qed.

(** *** Host order and wire order *)

Lemma le32toh_range (host : endianness) (x : Z) : is_uint32 (le32toh host x).
Proof. destruct host; simpl; [apply U32T_range | apply bswap32_range]. Qed.

Lemma htole32_range (host : endianness) (x : Z) : is_uint32 (htole32 host x).
Proof. destruct host; simpl; [apply U32T_range | apply bswap32_range]. Qed.

Lemma le32toh_htole32 (host : endianness) (x : Z) :
  le32toh host (htole32 host x) = U32T x.
Proof.
  destruct host; simpl.
  - apply U32T_idemp.
  - rewrite (U32T_small (bswap32 _)) by apply bswap32_range.
    apply bswap32_involutive, U32T_range.
Qed.

Lemma le32toh_lor (host : endianness) (a b : Z) :
  le32toh host (Z.lor a b) = Z.lor (le32toh host a) (le32toh host b).
Proof. destruct host; simpl; rewrite U32T_lor; [reflexivity | apply bswap32_lor]. Qed.

Lemma le32toh_land (host : endianness) (a b : Z) :
  le32toh host (Z.land a b) = Z.land (le32toh host a) (le32toh host b).
Proof. destruct host; simpl; rewrite U32T_land; [reflexivity | apply bswap32_land]. Qed.

Lemma le32toh_testbit_high (host : endianness) (x i : Z) :
  32 <= i -> Z.testbit (le32toh host x) i = false.
Proof.
  intros Hi. apply (testbit_above 32); [lia | apply le32toh_range | exact Hi].
Qed.

(** *** The macros on the decoded word *)

Lemma SET_NUMBITS32_decoded (host : endianness) (VAR SHIFT MASK VALUE : Z) :
  le32toh host (SET_NUMBITS32 host VAR SHIFT MASK VALUE) =
    Z.lor (le32toh host VAR) (shl32 (Z.land (U32T VALUE) MASK) SHIFT).
Proof.
  unfold SET_NUMBITS32. rewrite le32toh_lor, le32toh_htole32.
  unfold shl32. now rewrite U32T_idemp.
Qed.

Lemma CLEAR_NUMBITS32_decoded (host : endianness) (VAR SHIFT MASK : Z) :
  le32toh host (CLEAR_NUMBITS32 host VAR SHIFT MASK) =
    Z.land (le32toh host VAR) (not32 (shl32 (U32T MASK) SHIFT)).
Proof.
  unfold CLEAR_NUMBITS32. rewrite le32toh_land, le32toh_htole32.
  unfold not32. now rewrite U32T_idemp.
Qed.

Lemma SET_NUMBITS32_range (host : endianness) (VAR SHIFT MASK VALUE : Z) :
  is_uint32 VAR -> is_uint32 (SET_NUMBITS32 host VAR SHIFT MASK VALUE).
Proof.
  intros HVAR. unfold SET_NUMBITS32.
  rewrite <- (U32T_small VAR HVAR).
  rewrite <- (U32T_small (htole32 host _) (htole32_range host _)).
  rewrite <- U32T_lor. apply U32T_range.
Qed.

Lemma CLEAR_NUMBITS32_range (host : endianness) (VAR SHIFT MASK : Z) :
  is_uint32 VAR -> is_uint32 (CLEAR_NUMBITS32 host VAR SHIFT MASK).
Proof.
  intros HVAR. unfold CLEAR_NUMBITS32.
  rewrite <- (U32T_small VAR HVAR).
  rewrite <- (U32T_small (htole32 host _) (htole32_range host _)).
  rewrite <- U32T_land. apply U32T_range.
Qed.

(** *** Bit ranges of the field word *)

Lemma testbit_small (k v i : Z) :
  0 <= k -> 0 <= v < 2 ^ k -> Z.testbit v i = (i <? k) && Z.testbit v i.
Proof.
  intros Hk Hv. destruct (Z.ltb_spec i k); [reflexivity|].
  now apply (testbit_above k).
Qed.

Lemma read_field_testbit (host : endianness) (VAR s k i : Z) :
  0 <= s -> 0 <= k -> 0 <= i ->
  Z.testbit (GET_NUMBITS32 host VAR s (Z.ones k)) i =
    (i <? k) && Z.testbit (le32toh host VAR) (i + s).
Proof.
  intros Hs Hk Hi. unfold GET_NUMBITS32.
  rewrite Z.land_spec, Z.shiftr_spec, Z.testbit_ones_nonneg by lia.
  apply andb_comm.
Qed.

Lemma write_field_testbit (host : endianness) (VAR s k v i : Z) :
  0 <= s -> 0 <= k -> s + k <= 32 -> 0 <= i ->
  Z.testbit
    (le32toh host
       (SET_NUMBITS32 host (CLEAR_NUMBITS32 host VAR s (Z.ones k)) s (Z.ones k) v)) i =
    if (s <=? i) && (i <? s + k) then Z.testbit v (i - s)
    else Z.testbit (le32toh host VAR) i.
Proof.
  intros Hs Hk Hsk Hi.
  rewrite SET_NUMBITS32_decoded, CLEAR_NUMBITS32_decoded.
  pose proof (le32toh_testbit_high host VAR i) as Hhigh.
  unfold shl32, not32.
  repeat first
    [ rewrite Z.lor_spec | rewrite Z.land_spec | rewrite U32T_testbit
    | rewrite Z.lnot_spec by lia | rewrite Z.shiftl_spec by lia
    | rewrite Z.testbit_ones by lia ].
  split_ltb; simpl; try lia.
  all: rewrite ?Hhigh by lia.
  all: try rewrite (Z.testbit_neg_r v (i - s)) by lia.
  all: rewrite ?andb_true_r, ?andb_false_r, ?orb_false_r; try reflexivity.
  all: try lia.
Qed.

Lemma get_written_field (host : endianness) (VAR s k v : Z) :
  0 <= s -> 0 <= k -> s + k <= 32 -> 0 <= v < 2 ^ k ->
  GET_NUMBITS32 host
    (SET_NUMBITS32 host (CLEAR_NUMBITS32 host VAR s (Z.ones k)) s (Z.ones k) v)
    s (Z.ones k) = v.
Proof.
  intros Hs Hk Hsk Hv. apply Z.bits_inj'. intros i Hi.
  rewrite read_field_testbit, write_field_testbit by lia.
  rewrite (testbit_small k v i) by lia.
  split_ltb; simpl; try lia. f_equal. lia.
Qed.

Lemma get_other_field (host : endianness) (VAR s k v s' k' : Z) :
  0 <= s -> 0 <= k -> s + k <= 32 -> 0 <= s' -> 0 <= k' ->
  s' + k' <= s \/ s + k <= s' ->
  GET_NUMBITS32 host
    (SET_NUMBITS32 host (CLEAR_NUMBITS32 host VAR s (Z.ones k)) s (Z.ones k) v)
    s' (Z.ones k') = GET_NUMBITS32 host VAR s' (Z.ones k').
Proof.
  intros Hs Hk Hsk Hs' Hk' Hdisj. apply Z.bits_inj'. intros i Hi.
  rewrite !read_field_testbit, write_field_testbit by lia.
  split_ltb; simpl; try reflexivity; lia.
Qed.

Lemma U8T_small (x : Z) : 0 <= x < 2 ^ 8 -> U8T x = x.
Proof. intros. unfold U8T. now apply Z.mod_small. Qed.

Lemma masks_ones :
  VALID_MARK_MASK = Z.ones 1 /\ SPIKE_SOURCE_CORE_ID_MASK = Z.ones 5 /\
  SPIKE_CHIP_ID_MASK = Z.ones 6 /\ SPIKE_NEURON_ID_MASK = Z.ones 20.
Proof. repeat split. Qed.

Ltac masks_as_ones :=
  destruct masks_ones as (-> & -> & -> & ->);
  unfold VALID_MARK_SHIFT, SPIKE_SOURCE_CORE_ID_SHIFT, SPIKE_CHIP_ID_SHIFT,
    SPIKE_NEURON_ID_SHIFT in *.

(** ** The record codec *)

(** The layout of a record: core id 3, chip id 2 and neuron id 5 in a valid
    record make the word 0x00005087, which a little-endian host holds as it
    is and a big-endian host holds byte-swapped. *)
Example layout_little_endian :
  data (caerSpikeEventSetNeuronID LittleEndian
          (caerSpikeEventSetChipID LittleEndian
             (caerSpikeEventSetSourceCoreID LittleEndian
                {| data := 1; timestamp := 0 |} 3) 2) 5) = 0x00005087.
Proof. reflexivity. Qed.

Example layout_big_endian :
  data (caerSpikeEventSetNeuronID BigEndian
          (caerSpikeEventSetChipID BigEndian
             (caerSpikeEventSetSourceCoreID BigEndian
                {| data := 0x01000000; timestamp := 0 |} 3) 2) 5) = 0x87500000.
Proof. reflexivity. Qed.

Example stale_bits_cleared :
  caerSpikeEventGetChipID LittleEndian
    (caerSpikeEventSetChipID LittleEndian
       (caerSpikeEventSetChipID LittleEndian {| data := 0; timestamp := 0 |} 63) 1) = 1.
Proof. reflexivity. Qed.

Example value_truncated_by_mask :
  caerSpikeEventGetSourceCoreID LittleEndian
    (caerSpikeEventSetSourceCoreID LittleEndian {| data := 0; timestamp := 0 |} 33) = 1.
Proof. reflexivity. Qed.

(** C3.  For every record and every core id in [0,31], chip id in [0,63] and
    neuron id in [0,2^20-1], on either kind of host: the getter of a
    sub-field returns the value its setter has just written, whatever an
    earlier call of that setter had left there, and the setter changes
    neither of the two other sub-fields, nor the validity bit, nor the
    timestamp. *)
Theorem subfield_set_get_roundtrip
    (host : endianness) (event : caer_spike_event) (coreId chipId neuronId : Z) :
  0 <= coreId <= 31 -> 0 <= chipId <= 63 -> 0 <= neuronId <= 2 ^ 20 - 1 ->
  let core := caerSpikeEventSetSourceCoreID host event coreId in
  let chip := caerSpikeEventSetChipID host event chipId in
  let neuron := caerSpikeEventSetNeuronID host event neuronId in
  (caerSpikeEventGetSourceCoreID host core = coreId /\
   caerSpikeEventGetChipID host core = caerSpikeEventGetChipID host event /\
   caerSpikeEventGetNeuronID host core = caerSpikeEventGetNeuronID host event /\
   caerSpikeEventIsValid host core = caerSpikeEventIsValid host event /\
   timestamp core = timestamp event) /\
  (caerSpikeEventGetChipID host chip = chipId /\
   caerSpikeEventGetSourceCoreID host chip = caerSpikeEventGetSourceCoreID host event /\
   caerSpikeEventGetNeuronID host chip = caerSpikeEventGetNeuronID host event /\
   caerSpikeEventIsValid host chip = caerSpikeEventIsValid host event /\
   timestamp chip = timestamp event) /\
  (caerSpikeEventGetNeuronID host neuron = neuronId /\
   caerSpikeEventGetSourceCoreID host neuron = caerSpikeEventGetSourceCoreID host event /\
   caerSpikeEventGetChipID host neuron = caerSpikeEventGetChipID host event /\
   caerSpikeEventIsValid host neuron = caerSpikeEventIsValid host event /\
   timestamp neuron = timestamp event) /\
  (forall previous : Z,
     caerSpikeEventGetSourceCoreID host
       (caerSpikeEventSetSourceCoreID host
          (caerSpikeEventSetSourceCoreID host event previous) coreId) = coreId /\
     caerSpikeEventGetChipID host
       (caerSpikeEventSetChipID host
          (caerSpikeEventSetChipID host event previous) chipId) = chipId /\
     caerSpikeEventGetNeuronID host
       (caerSpikeEventSetNeuronID host
          (caerSpikeEventSetNeuronID host event previous) neuronId) = neuronId).
Proof.
  intros Hcore Hchip Hneuron.
  unfold caerSpikeEventGetSourceCoreID, caerSpikeEventGetChipID,
    caerSpikeEventGetNeuronID, caerSpikeEventIsValid,
    caerSpikeEventSetSourceCoreID, caerSpikeEventSetChipID,
    caerSpikeEventSetNeuronID; cbn [data timestamp].
  masks_as_ones.
  rewrite !get_written_field by lia.
  rewrite !get_other_field by lia.
  repeat split; intros; try reflexivity.
  all: rewrite ?get_written_field by lia.
  all: first [apply U8T_small | apply U32T_small; unfold is_uint32]; lia.
Qed.

Lemma subfield_set_get_roundtrip_witness :
  caerSpikeEventGetSourceCoreID BigEndian
    (caerSpikeEventSetSourceCoreID BigEndian {| data := 0xFFFFFFFF; timestamp := 7 |} 21) = 21.
Proof.
  exact (proj1 (proj1 (subfield_set_get_roundtrip BigEndian
                         {| data := 0xFFFFFFFF; timestamp := 7 |} 21 42 1000
                         ltac:(lia) ltac:(lia) ltac:(lia)))).
Defined.

(** *** Timestamps *)

Lemma I32T_range (x : Z) : is_int32 (I32T x).
Proof.
  unfold is_int32, I32T.
  pose proof (Z.mod_pos_bound (x + 2 ^ 31) (2 ^ 32) ltac:(lia)). lia.
Qed.

Lemma I32T_small (x : Z) : is_int32 x -> I32T x = x.
Proof.
  unfold is_int32, I32T. intros Hx.
  rewrite Z.mod_small by lia. lia.
Qed.

Lemma U32T_I32T (x : Z) : U32T (I32T x) = U32T x.
Proof.
  unfold U32T, I32T.
  rewrite Zminus_mod_idemp_l.
  f_equal. lia.
Qed.

Lemma le32toh_I32T (host : endianness) (x : Z) :
  le32toh host (I32T x) = le32toh host x.
Proof. destruct host; simpl; now rewrite U32T_I32T. Qed.

Lemma I32T_negative (x : Z) :
  is_uint32 x -> Z.testbit x 31 = true -> I32T x = x - 2 ^ 32 /\ I32T x < 0.
Proof.
  unfold is_uint32, I32T. intros Hx Hbit.
  assert (Hge : 2 ^ 31 <= x).
  { destruct (Z.lt_ge_cases x (2 ^ 31)) as [Hlt|]; [|assumption].
    rewrite (testbit_above 31 x 31) in Hbit by lia. discriminate. }
  replace (x + 2 ^ 31) with ((x - 2 ^ 31) + 1 * 2 ^ 32) by lia.
  rewrite Z.mod_add by lia. rewrite Z.mod_small by lia. lia.
Qed.

(** C4.  For every record and every [int32_t] value t: when t is not
    negative, [caerSpikeEventSetTimestamp] logs nothing, leaves the field
    word alone and stores t, so that [caerSpikeEventGetTimestamp] returns
    exactly t; when t is negative, the call returns the record as it was and
    logs one critical message that names the negative value. *)
Theorem set_timestamp_roundtrip_or_reject
    (host : endianness) (event : caer_spike_event) (t : Z) :
  is_int32 t ->
  (0 <= t ->
   caerSpikeEventGetTimestamp host (fst (caerSpikeEventSetTimestamp host event t)) = t /\
   data (fst (caerSpikeEventSetTimestamp host event t)) = data event /\
   snd (caerSpikeEventSetTimestamp host event t) = []) /\
  (t < 0 ->
   caerSpikeEventSetTimestamp host event t = (event, [negative_timestamp_message]) /\
   is_critical negative_timestamp_message = true).
Proof.
  intros Ht. unfold caerSpikeEventSetTimestamp. split; intros Hsign.
  - destruct (Z.ltb_spec t 0) as [|_]; [lia|]. cbn [fst snd data].
    repeat split.
    unfold caerSpikeEventGetTimestamp; cbn [timestamp].
    rewrite le32toh_I32T, le32toh_htole32.
    rewrite U32T_small by (unfold is_int32, is_uint32 in *; lia).
    now apply I32T_small.
  - destruct (Z.ltb_spec t 0) as [_|]; [|lia]. split; reflexivity.
Qed.

Lemma set_timestamp_roundtrip_or_reject_witness :
  caerSpikeEventGetTimestamp BigEndian
    (fst (caerSpikeEventSetTimestamp BigEndian {| data := 3; timestamp := 9 |} 1000000)) = 1000000
  /\ caerSpikeEventSetTimestamp LittleEndian {| data := 3; timestamp := 9 |} (-1) =
       ({| data := 3; timestamp := 9 |}, [negative_timestamp_message]).
Proof.
  split.
  - exact (proj1 (proj1 (set_timestamp_roundtrip_or_reject BigEndian
                           {| data := 3; timestamp := 9 |} 1000000
                           ltac:(unfold is_int32; lia)) ltac:(lia))).
  - exact (proj1 (proj2 (set_timestamp_roundtrip_or_reject LittleEndian
                           {| data := 3; timestamp := 9 |} (-1)
                           ltac:(unfold is_int32; lia)) ltac:(lia))).
Defined.

(** C10.  [caerSpikeEventGetTimestamp] checks nothing: it is a function of
    the stored pattern alone, with no message to log.  For a record whose
    stored timestamp, read as a little-endian 32-bit pattern, has bit 31
    set, it returns the negative [int32_t] value of that pattern, which
    [caerSpikeEventSetTimestamp] refuses to store: the sign is checked on
    the setter only. *)
Theorem get_timestamp_unchecked (host : endianness) (event : caer_spike_event) :
  Z.testbit (le32toh host (timestamp event)) 31 = true ->
  caerSpikeEventGetTimestamp host event = le32toh host (timestamp event) - 2 ^ 32 /\
  INT32_MIN <= caerSpikeEventGetTimestamp host event < 0 /\
  (forall other : caer_spike_event,
     caerSpikeEventSetTimestamp host other (caerSpikeEventGetTimestamp host event) =
       (other, [negative_timestamp_message])).
Proof.
  intros Hbit. unfold caerSpikeEventGetTimestamp.
  destruct (I32T_negative _ (le32toh_range host (timestamp event)) Hbit) as [Heq Hneg].
  pose proof (I32T_range (le32toh host (timestamp event))) as Hr.
  unfold is_int32 in Hr. unfold INT32_MIN.
  repeat split; try lia.
  intros other. unfold caerSpikeEventSetTimestamp.
  destruct (Z.ltb_spec (I32T (le32toh host (timestamp event))) 0); [reflexivity | lia].
Qed.

Lemma get_timestamp_unchecked_witness :
  caerSpikeEventGetTimestamp LittleEndian {| data := 1; timestamp := -5 |} = -5 /\
  caerSpikeEventGetTimestamp BigEndian {| data := 1; timestamp := 0x80 |} = - 0x80000000.
Proof.
  split.
  - exact (proj1 (get_timestamp_unchecked LittleEndian {| data := 1; timestamp := -5 |}
                    eq_refl)).
  - exact (proj1 (get_timestamp_unchecked BigEndian {| data := 1; timestamp := 0x80 |}
                    eq_refl)).
Defined.

(** *** 64-bit timestamps *)

Lemma U64T_testbit (x i : Z) :
  Z.testbit (U64T x) i = (i <? 64) && Z.testbit x i.
Proof.
  unfold U64T. destruct (Z.ltb_spec i 64).
  - destruct (Z.ltb_spec i 0).
    + now rewrite !Z.testbit_neg_r.
    + now rewrite Z.mod_pow2_bits_low.
  - now rewrite Z.mod_pow2_bits_high by lia.
Qed.

Lemma I64T_U64T (x : Z) : is_int64 x -> I64T (U64T x) = x.
Proof.
  unfold is_int64, I64T, U64T. intros Hx.
  rewrite Zplus_mod_idemp_l. rewrite Z.mod_small by lia. lia.
Qed.

Lemma I64T_mod (x : Z) : I64T (U64T x) = I64T x.
Proof. unfold I64T, U64T. now rewrite Zplus_mod_idemp_l. Qed.

Lemma shifted_lor_sum (ovf ts : Z) :
  0 <= ts < 2 ^ 31 -> Z.lor (Z.shiftl ovf 31) ts = ovf * 2 ^ 31 + ts.
Proof.
  intros Hts. rewrite <- Z.shiftl_mul_pow2 by lia.
  rewrite <- Z.lxor_lor, Z.add_nocarry_lxor; try reflexivity.
  all: apply Z.bits_inj'; intros i Hi;
    rewrite Z.land_spec, Z.bits_0, Z.shiftl_spec by lia;
    destruct (Z.ltb_spec i 31);
    [ rewrite (Z.testbit_neg_r ovf) by lia; reflexivity
    | rewrite (testbit_above 31 ts i) by lia; apply andb_false_r ].
Qed.

Lemma timestamp64_words (ovf ts : Z) :
  Z.lor (shl64 (U64T ovf) TS_OVERFLOW_SHIFT) (U64T ts) =
    U64T (Z.lor (Z.shiftl ovf 31) ts).
Proof.
  unfold shl64, TS_OVERFLOW_SHIFT. apply Z.bits_inj'. intros i Hi.
  repeat first
    [ rewrite Z.lor_spec | rewrite U64T_testbit | rewrite Z.shiftl_spec by lia ].
  split_ltb; simpl; try reflexivity; lia.
Qed.

Lemma timestamp64_spec_words (ovf ts : Z) :
  timestamp64_spec ovf ts = I64T (Z.lor (Z.shiftl ovf 31) ts).
Proof.
  unfold timestamp64_spec.
  rewrite <- (I64T_mod (Z.lor (Z.shiftl (U64T ovf) 31) (U64T ts))).
  rewrite <- (I64T_mod (Z.lor (Z.shiftl ovf 31) ts)). f_equal.
  apply Z.bits_inj'. intros i Hi.
  repeat first
    [ rewrite Z.lor_spec | rewrite U64T_testbit | rewrite Z.shiftl_spec by lia ].
  split_ltb; simpl; rewrite ?andb_false_r; try reflexivity; lia.
Qed.

(** C7.  For every record whose 32-bit timestamp is not negative and every
    [int32_t] overflow counter: [caerSpikeEventGetTimestamp64] returns the
    overflow counter shifted left by 31 and or-ed with the timestamp, both
    taken as unsigned 64-bit operands and the result as a signed 64-bit
    value; no bit is lost, the value is overflowCounter * 2^31 +
    timestamp32.  An overflow counter 1 and a timestamp 5 give
    (1 << 31) | 5. *)
Theorem timestamp64_reconstruction
    (host : endianness) (event : caer_spike_event) (packet : caer_spike_event_packet) :
  let overflowCounter := eventTSOverflow (packetHeader packet) in
  let timestamp32 := caerSpikeEventGetTimestamp host event in
  is_int32 overflowCounter -> 0 <= timestamp32 ->
  caerSpikeEventGetTimestamp64 host event packet =
    timestamp64_spec overflowCounter timestamp32 /\
  caerSpikeEventGetTimestamp64 host event packet =
    Z.lor (Z.shiftl overflowCounter 31) timestamp32 /\
  caerSpikeEventGetTimestamp64 host event packet =
    overflowCounter * 2 ^ 31 + timestamp32 /\
  (overflowCounter = 1 -> timestamp32 = 5 ->
   caerSpikeEventGetTimestamp64 host event packet = Z.lor (Z.shiftl 1 31) 5).
Proof.
  intros ovf ts Hovf Hts.
  assert (Hts' : 0 <= ts < 2 ^ 31).
  { pose proof (I32T_range (le32toh host (timestamp event))) as Hr.
    unfold is_int32 in Hr. subst ts. unfold caerSpikeEventGetTimestamp in *. lia. }
  assert (Hcode : caerSpikeEventGetTimestamp64 host event packet =
                    Z.lor (Z.shiftl ovf 31) ts).
  { unfold caerSpikeEventGetTimestamp64, caerEventPacketHeaderGetEventTSOverflow.
    fold ovf. fold ts. rewrite timestamp64_words.
    apply I64T_U64T. rewrite shifted_lor_sum by assumption.
    unfold is_int32, is_int64 in *. lia. }
  repeat split.
  - rewrite timestamp64_spec_words, Hcode. rewrite <- I64T_mod. symmetry.
    apply I64T_U64T. rewrite shifted_lor_sum by assumption.
    unfold is_int32, is_int64 in *. lia.
  - exact Hcode.
  - rewrite Hcode. now apply shifted_lor_sum.
  - intros H1 H5. rewrite Hcode, H1, H5. reflexivity.
Qed.

Lemma timestamp64_reconstruction_witness :
  caerSpikeEventGetTimestamp64 LittleEndian {| data := 1; timestamp := 5 |}
    (zeroed_packet 12 0 1 4) = Z.lor (Z.shiftl 1 31) 5.
Proof.
  exact (proj2 (proj2 (proj2
           (timestamp64_reconstruction LittleEndian {| data := 1; timestamp := 5 |}
              (zeroed_packet 12 0 1 4)
              ltac:(unfold is_int32; simpl; lia) ltac:(vm_compute; discriminate))))
           eq_refl eq_refl).
Defined.

(** ** Validate and invalidate, on a record *)

Lemma is_valid_bit0 (host : endianness) (event : caer_spike_event) :
  caerSpikeEventIsValid host event = Z.testbit (le32toh host (data event)) 0.
Proof.
  unfold caerSpikeEventIsValid, GET_NUMBITS32.
  destruct masks_ones as (-> & _). unfold VALID_MARK_SHIFT.
  rewrite Z.shiftr_0_r, Z.land_ones by lia.
  change (2 ^ 1) with 2. rewrite <- Z.bit0_mod.
  now destruct (Z.testbit (le32toh host (data event)) 0).
Qed.

Lemma validate_word_testbit (host : endianness) (VAR i : Z) :
  0 <= i ->
  Z.testbit (le32toh host (SET_NUMBITS32 host VAR VALID_MARK_SHIFT VALID_MARK_MASK 1)) i =
    (i =? 0) || Z.testbit (le32toh host VAR) i.
Proof.
  intros Hi. rewrite SET_NUMBITS32_decoded.
  change (shl32 (Z.land (U32T 1) VALID_MARK_MASK) VALID_MARK_SHIFT) with 1.
  rewrite Z.lor_spec. destruct (Z.eqb_spec i 0) as [->|Hne].
  - apply orb_true_r.
  - change 1 with (Z.ones 1). rewrite Z.testbit_ones by lia.
    destruct (Z.ltb_spec i 1); [lia|]. now rewrite andb_false_r, orb_false_r.
Qed.

Lemma invalidate_word_testbit (host : endianness) (VAR i : Z) :
  0 <= i ->
  Z.testbit (le32toh host (CLEAR_NUMBITS32 host VAR VALID_MARK_SHIFT VALID_MARK_MASK)) i =
    negb (i =? 0) && Z.testbit (le32toh host VAR) i.
Proof.
  intros Hi. rewrite CLEAR_NUMBITS32_decoded.
  pose proof (le32toh_testbit_high host VAR i) as Hhigh.
  change (shl32 (U32T VALID_MARK_MASK) VALID_MARK_SHIFT) with (Z.ones 1).
  unfold not32. rewrite Z.land_spec, U32T_testbit, Z.lnot_spec, Z.testbit_ones by lia.
  destruct (Z.eqb_spec i 0) as [->|Hne]; simpl.
  - apply andb_false_r.
  - split_ltb; simpl; try lia.
    + apply andb_true_r.
    + rewrite Hhigh by lia. reflexivity.
Qed.

Lemma validate_keeps_field (host : endianness) (VAR s k : Z) :
  1 <= s -> 0 <= k ->
  GET_NUMBITS32 host (SET_NUMBITS32 host VAR VALID_MARK_SHIFT VALID_MARK_MASK 1) s (Z.ones k) =
    GET_NUMBITS32 host VAR s (Z.ones k).
Proof.
  intros Hs Hk. apply Z.bits_inj'. intros i Hi.
  rewrite !read_field_testbit, validate_word_testbit by lia.
  destruct (Z.eqb_spec (i + s) 0); [lia | reflexivity].
Qed.

Lemma invalidate_keeps_field (host : endianness) (VAR s k : Z) :
  1 <= s -> 0 <= k ->
  GET_NUMBITS32 host (CLEAR_NUMBITS32 host VAR VALID_MARK_SHIFT VALID_MARK_MASK) s (Z.ones k) =
    GET_NUMBITS32 host VAR s (Z.ones k).
Proof.
  intros Hs Hk. apply Z.bits_inj'. intros i Hi.
  rewrite !read_field_testbit, invalidate_word_testbit by lia.
  destruct (Z.eqb_spec (i + s) 0); [lia | reflexivity].
Qed.

Lemma marked_is_valid (host : endianness) (event : caer_spike_event) :
  caerSpikeEventIsValid host (marked host event) = true.
Proof. rewrite is_valid_bit0. cbn [marked data]. now rewrite validate_word_testbit. Qed.

Lemma unmarked_is_invalid (host : endianness) (event : caer_spike_event) :
  caerSpikeEventIsValid host (unmarked host event) = false.
Proof. rewrite is_valid_bit0. cbn [unmarked data]. now rewrite invalidate_word_testbit. Qed.

Lemma same_but_validity_refl (host : endianness) (e : caer_spike_event) :
  same_but_validity host e e.
Proof. repeat split. Qed.

Lemma marked_same_but_validity (host : endianness) (e : caer_spike_event) :
  same_but_validity host e (marked host e).
Proof.
  unfold same_but_validity, field_word, caerSpikeEventGetSourceCoreID,
    caerSpikeEventGetChipID, caerSpikeEventGetNeuronID, caerSpikeEventGetTimestamp.
  cbn [marked data timestamp].
  destruct masks_ones as (_ & -> & -> & ->).
  rewrite !validate_keeps_field by (unfold SPIKE_SOURCE_CORE_ID_SHIFT,
    SPIKE_CHIP_ID_SHIFT, SPIKE_NEURON_ID_SHIFT; lia).
  repeat split. intros b Hb. rewrite validate_word_testbit by lia.
  destruct (Z.eqb_spec b 0); [lia | reflexivity].
Qed.

Lemma unmarked_same_but_validity (host : endianness) (e : caer_spike_event) :
  same_but_validity host e (unmarked host e).
Proof.
  unfold same_but_validity, field_word, caerSpikeEventGetSourceCoreID,
    caerSpikeEventGetChipID, caerSpikeEventGetNeuronID, caerSpikeEventGetTimestamp.
  cbn [unmarked data timestamp].
  destruct masks_ones as (_ & -> & -> & ->).
  rewrite !invalidate_keeps_field by (unfold SPIKE_SOURCE_CORE_ID_SHIFT,
    SPIKE_CHIP_ID_SHIFT, SPIKE_NEURON_ID_SHIFT; lia).
  repeat split. intros b Hb. rewrite invalidate_word_testbit by lia.
  destruct (Z.eqb_spec b 0); [lia | reflexivity].
Qed.

Lemma validate_cases (host : endianness)
    (event : caer_spike_event) (header : caer_event_packet_header) :
  caerSpikeEventValidate host event header =
    if caerSpikeEventIsValid host event
    then ((event, header), [already_valid_message])
    else ((marked host event, counted header), []).
Proof.
  unfold caerSpikeEventValidate. now destruct (caerSpikeEventIsValid host event).
Qed.

Lemma invalidate_cases (host : endianness)
    (event : caer_spike_event) (header : caer_event_packet_header) :
  caerSpikeEventInvalidate host event header =
    if caerSpikeEventIsValid host event
    then ((unmarked host event, discounted header), [])
    else ((event, header), [already_invalid_message]).
Proof.
  unfold caerSpikeEventInvalidate. now destruct (caerSpikeEventIsValid host event).
Qed.

(** ** Validate and invalidate, on a record of a packet *)

Lemma packet_eta (packet : caer_spike_event_packet) (i : nat) (e : caer_spike_event) :
  events packet !! i = Some e ->
  {| packetHeader := packetHeader packet; events := <[i := e]> (events packet) |} = packet.
Proof. intros H. destruct packet as [h evs]. cbn in *. f_equal. now apply list_insert_id. Qed.

Lemma run_validate (host : endianness)
    (packet : caer_spike_event_packet) (i : nat) (e : caer_spike_event) :
  events packet !! i = Some e ->
  run_op host (Validate i) packet =
    if caerSpikeEventIsValid host e
    then Some (packet, [already_valid_message])
    else Some ({| packetHeader := counted (packetHeader packet);
                  events := <[i := marked host e]> (events packet) |}, []).
Proof.
  intros H. cbn [run_op]. unfold call_on_event. rewrite H, validate_cases.
  destruct (caerSpikeEventIsValid host e); [|reflexivity].
  now rewrite packet_eta.
Qed.

Lemma run_invalidate (host : endianness)
    (packet : caer_spike_event_packet) (i : nat) (e : caer_spike_event) :
  events packet !! i = Some e ->
  run_op host (Invalidate i) packet =
    if caerSpikeEventIsValid host e
    then Some ({| packetHeader := discounted (packetHeader packet);
                  events := <[i := unmarked host e]> (events packet) |}, [])
    else Some (packet, [already_invalid_message]).
Proof.
  intros H. cbn [run_op]. unfold call_on_event. rewrite H, invalidate_cases.
  destruct (caerSpikeEventIsValid host e); [reflexivity|].
  now rewrite packet_eta.
Qed.

(** C5.  For every packet and every record of it: [caerSpikeEventValidate]
    on a record whose validity bit is set returns the packet as it was, the
    record and the two counters included, and logs one critical message;
    [caerSpikeEventInvalidate] on a record whose validity bit is clear does
    the same. *)
Theorem repeated_mark_is_reported_noop
    (host : endianness) (packet : caer_spike_event_packet) (i : nat)
    (event : caer_spike_event) :
  events packet !! i = Some event ->
  (caerSpikeEventIsValid host event = true ->
   caerSpikeEventValidate host event (packetHeader packet) =
     ((event, packetHeader packet), [already_valid_message]) /\
   run_op host (Validate i) packet = Some (packet, [already_valid_message])) /\
  (caerSpikeEventIsValid host event = false ->
   caerSpikeEventInvalidate host event (packetHeader packet) =
     ((event, packetHeader packet), [already_invalid_message]) /\
   run_op host (Invalidate i) packet = Some (packet, [already_invalid_message])) /\
  is_critical already_valid_message = true /\
  is_critical already_invalid_message = true.
Proof.
  intros Hi. repeat split.
  - rewrite validate_cases. now rewrite H.
  - rewrite (run_validate host packet i event Hi). now rewrite H.
  - rewrite invalidate_cases. now rewrite H.
  - rewrite (run_invalidate host packet i event Hi). now rewrite H.
Qed.

Lemma repeated_mark_is_reported_noop_witness :
  let packet :=
    {| packetHeader := {| eventType := 12; eventSource := 1; eventTSOverflow := 0;
                          eventCapacity := 2; eventNumber := 1; eventValid := 1 |};
       events := [ {| data := 0x43200001; timestamp := 10 |}; zero_event ] |} in
  run_op BigEndian (Validate 0) packet = Some (packet, [already_valid_message]) /\
  run_op BigEndian (Invalidate 1) packet = Some (packet, [already_invalid_message]).
Proof.
  intros packet. split.
  - exact (proj2 (proj1 (repeated_mark_is_reported_noop BigEndian packet 0
                           {| data := 0x43200001; timestamp := 10 |} eq_refl) eq_refl)).
  - exact (proj2 (proj1 (proj2 (repeated_mark_is_reported_noop BigEndian packet 1
                                  zero_event eq_refl)) eq_refl)).
Defined.

(** C9.  For every packet, every record of it and both operations:
    [caerSpikeEventValidate] and [caerSpikeEventInvalidate] return, for the
    record they are called on, a record with the same field word but for
    bit 0, hence the same source core id, chip id and neuron id, and the
    same timestamp; every other record of the packet is as it was, and of
    the header only the two counters may differ. *)
Theorem mark_frame
    (host : endianness) (packet : caer_spike_event_packet) (op : bookkeeping_op)
    (event : caer_spike_event) :
  events packet !! op_on op = Some event ->
  exists (packet' : caer_spike_event_packet) (msgs : list log_entry)
         (event' : caer_spike_event),
    run_op host op packet = Some (packet', msgs) /\
    events packet' !! op_on op = Some event' /\
    same_but_validity host event event' /\
    (forall j : nat, j <> op_on op -> events packet' !! j = events packet !! j) /\
    length (events packet') = length (events packet) /\
    same_fixed_fields (packetHeader packet) (packetHeader packet').
Proof.
  intros Hi.
  assert (Hlt : (op_on op < length (events packet))%nat)
    by (eapply lookup_lt_Some; exact Hi).
  destruct op as [i|i]; cbn [op_on] in *.
  - rewrite (run_validate host packet i event Hi).
    destruct (caerSpikeEventIsValid host event).
    + exists packet, [already_valid_message], event.
      repeat split; auto using same_but_validity_refl.
    + eexists _, [], (marked host event). split; [reflexivity|]. cbn [events packetHeader].
      split; [now apply list_lookup_insert_eq|].
      split; [apply marked_same_but_validity|].
      split; [intros j Hj; now apply list_lookup_insert_ne|].
      split; [apply length_insert | repeat split].
  - rewrite (run_invalidate host packet i event Hi).
    destruct (caerSpikeEventIsValid host event).
    + eexists _, [], (unmarked host event). split; [reflexivity|]. cbn [events packetHeader].
      split; [now apply list_lookup_insert_eq|].
      split; [apply unmarked_same_but_validity|].
      split; [intros j Hj; now apply list_lookup_insert_ne|].
      split; [apply length_insert | repeat split].
    + exists packet, [already_invalid_message], event.
      repeat split; auto using same_but_validity_refl.
Qed.

Lemma mark_frame_witness :
  exists packet' msgs event',
    run_op LittleEndian (Validate 1)
      {| packetHeader := {| eventType := 12; eventSource := 1; eventTSOverflow := 0;
                            eventCapacity := 2; eventNumber := 1; eventValid := 1 |};
         events := [ {| data := 0x2043; timestamp := 10 |};
                     {| data := 0x7FFE; timestamp := 11 |} ] |} = Some (packet', msgs) /\
    events packet' !! 1%nat = Some event' /\
    same_but_validity LittleEndian {| data := 0x7FFE; timestamp := 11 |} event' /\
    (forall j : nat, j <> 1%nat ->
       events packet' !! j =
         [ {| data := 0x2043; timestamp := 10 |};
           {| data := 0x7FFE; timestamp := 11 |} ] !! j) /\
    length (events packet') = 2%nat /\
    same_fixed_fields
      {| eventType := 12; eventSource := 1; eventTSOverflow := 0;
         eventCapacity := 2; eventNumber := 1; eventValid := 1 |} (packetHeader packet').
Proof.
  exact (mark_frame LittleEndian
           {| packetHeader := {| eventType := 12; eventSource := 1; eventTSOverflow := 0;
                                 eventCapacity := 2; eventNumber := 1; eventValid := 1 |};
              events := [ {| data := 0x2043; timestamp := 10 |};
                          {| data := 0x7FFE; timestamp := 11 |} ] |}
           (Validate 1) {| data := 0x7FFE; timestamp := 11 |} eq_refl).
Defined.

(** ** Indexed access *)

(** C6.  For every packet with a capacity that is not negative and every
    integer n: [caerSpikeEventPacketGetEvent] returns the pointer to record
    n, and logs nothing, exactly when 0 <= n < capacity; in a packet made of
    a header and [eventCapacity] records that pointer is to a record of the
    packet.  For any other n it returns [NULL] and logs one critical message
    that names n; so it does for n = capacity and for n = -1.  The function
    only reads the packet. *)
Theorem get_event_bounds (packet : caer_spike_event_packet) (n : Z) :
  let capacity := eventCapacity (packetHeader packet) in
  0 <= capacity ->
  (0 <= n < capacity ->
   caerSpikeEventPacketGetEvent packet n = (Some (Z.to_nat n), []) /\
   (Z.of_nat (length (events packet)) = capacity ->
    is_Some (events packet !! Z.to_nat n))) /\
  (~ 0 <= n < capacity ->
   caerSpikeEventPacketGetEvent packet n = (None, [out_of_bounds_message packet n])) /\
  (is_Some (fst (caerSpikeEventPacketGetEvent packet n)) <-> 0 <= n < capacity) /\
  caerSpikeEventPacketGetEvent packet capacity =
    (None, [out_of_bounds_message packet capacity]) /\
  caerSpikeEventPacketGetEvent packet (-1) = (None, [out_of_bounds_message packet (-1)]) /\
  is_critical (out_of_bounds_message packet n) = true.
Proof.
  intros capacity Hcap.
  assert (Hin : forall m, 0 <= m < capacity ->
            caerSpikeEventPacketGetEvent packet m = (Some (Z.to_nat m), [])).
  { intros m Hm. unfold caerSpikeEventPacketGetEvent, caerEventPacketHeaderGetEventCapacity.
    fold capacity.
    destruct (Z.ltb_spec m 0); [lia|]. destruct (Z.geb_spec m capacity); [lia|].
    reflexivity. }
  assert (Hout : forall m, ~ 0 <= m < capacity ->
            caerSpikeEventPacketGetEvent packet m = (None, [out_of_bounds_message packet m])).
  { intros m Hm. unfold caerSpikeEventPacketGetEvent, caerEventPacketHeaderGetEventCapacity.
    fold capacity.
    destruct (Z.ltb_spec m 0); [reflexivity|].
    destruct (Z.geb_spec m capacity); [reflexivity | lia]. }
  split; [|split; [|split; [|split; [|split]]]].
  - intros Hn. split; [now apply Hin|].
    intros Hlen. apply lookup_lt_is_Some. lia.
  - exact (Hout n).
  - split.
    + intros [ptr Hptr]. destruct (decide (0 <= n < capacity)) as [|Hn]; [assumption|].
      rewrite (Hout n Hn) in Hptr. discriminate.
    + intros Hn. rewrite (Hin n Hn). now exists (Z.to_nat n).
  - apply Hout. lia.
  - apply Hout. lia.
  - reflexivity.
Qed.

Lemma get_event_bounds_witness :
  (caerSpikeEventPacketGetEvent (zeroed_packet 12 0 0 3) 2 = (Some 2%nat, []) /\
   is_Some (events (zeroed_packet 12 0 0 3) !! 2%nat)) /\
  caerSpikeEventPacketGetEvent (zeroed_packet 12 0 0 3) 3 =
    (None, [out_of_bounds_message (zeroed_packet 12 0 0 3) 3]) /\
  caerSpikeEventPacketGetEvent (zeroed_packet 12 0 0 0) (-1) =
    (None, [out_of_bounds_message (zeroed_packet 12 0 0 0) (-1)]).
Proof.
  pose proof (get_event_bounds (zeroed_packet 12 0 0 3) 2 ltac:(simpl; lia)) as H3.
  pose proof (get_event_bounds (zeroed_packet 12 0 0 0) 7 ltac:(simpl; lia)) as H0.
  split; [|split].
  - destruct (proj1 H3 ltac:(simpl; lia)) as [Hptr Hrec].
    split; [exact Hptr | exact (Hrec eq_refl)].
  - exact (proj1 (proj2 (proj2 (proj2 H3)))).
  - exact (proj1 (proj2 (proj2 (proj2 (proj2 H0))))).
Defined.

(** ** The bookkeeping invariant *)

Section Bookkeeping.
Variable host : endianness.

Local Abbreviation consistent := (Model.consistent host).

Lemma validity_bit_cases (e : caer_spike_event) :
  validity_bit host e = 0 \/ validity_bit host e = 1.
Proof. unfold validity_bit. destruct (caerSpikeEventIsValid host e); auto. Qed.

Lemma valid_sum_nonneg (n : nat) (evs : list caer_spike_event) :
  0 <= valid_sum host n evs.
Proof.
  unfold valid_sum. induction (take n evs) as [|e l IH]; cbn; [lia|].
  destruct (validity_bit_cases e); lia.
Qed.

Lemma bits_insert (l : list caer_spike_event) (i : nat) (e e' : caer_spike_event) :
  l !! i = Some e ->
  foldr (fun e acc => validity_bit host e + acc) 0 (<[i := e']> l) =
    foldr (fun e acc => validity_bit host e + acc) 0 l
    - validity_bit host e + validity_bit host e'.
Proof.
  revert i. induction l as [|x l IH]; intros [|i] H; try discriminate; simpl in *.
  - injection H as ->. lia.
  - rewrite (IH i H). lia.
Qed.

Lemma valid_sum_insert_lt (n i : nat) (evs : list caer_spike_event)
    (e e' : caer_spike_event) :
  (i < n)%nat -> evs !! i = Some e ->
  valid_sum host n (<[i := e']> evs) =
    valid_sum host n evs - validity_bit host e + validity_bit host e'.
Proof.
  intros Hlt He. unfold valid_sum. rewrite take_insert_lt by assumption.
  apply bits_insert. now rewrite lookup_take_lt.
Qed.

Lemma valid_sum_insert_ge (n i : nat) (evs : list caer_spike_event)
    (e' : caer_spike_event) :
  (n <= i)%nat -> valid_sum host n (<[i := e']> evs) = valid_sum host n evs.
Proof. intros Hge. unfold valid_sum. now rewrite take_insert_ge. Qed.

Lemma valid_sum_S (n : nat) (evs : list caer_spike_event) (e : caer_spike_event) :
  evs !! n = Some e ->
  valid_sum host (S n) evs = valid_sum host n evs + validity_bit host e.
Proof.
  intros He. unfold valid_sum. rewrite (take_S_r _ _ _ He).
  induction (take n evs) as [|x l IH]; cbn; [lia|]. rewrite IH. lia.
Qed.

Lemma unused_lookup (packet : caer_spike_event_packet) (i : nat) (e : caer_spike_event) :
  unused_invalid host packet ->
  (Z.to_nat (eventNumber (packetHeader packet)) <= i)%nat ->
  events packet !! i = Some e -> caerSpikeEventIsValid host e = false.
Proof.
  intros Hun Hge He. unfold unused_invalid in Hun.
  rewrite Forall_lookup in Hun.
  apply (Hun (i - Z.to_nat (eventNumber (packetHeader packet)))%nat e).
  rewrite lookup_drop. rewrite <- He. f_equal. lia.
Qed.

Lemma validate_consistent (packet : caer_spike_event_packet) (i : nat)
    (e : caer_spike_event) :
  consistent packet -> events packet !! i = Some e ->
  caerSpikeEventIsValid host e = false ->
  Z.of_nat i <= eventNumber (packetHeader packet) ->
  eventNumber (packetHeader packet) < eventCapacity (packetHeader packet) ->
  consistent {| packetHeader := counted (packetHeader packet);
           events := <[i := marked host e]> (events packet) |}.
Proof.
  intros ((Hlen & Hcap) & (Hv0 & Hvn & Hnc & Hsum) & Hun) He Hinv Hi Hroom.
  destruct packet as [h evs]. cbn [packetHeader events] in *.
  unfold INT32_MAX in Hcap.
  set (N := Z.to_nat (eventNumber h)) in *.
  assert (HN : (N < length evs)%nat) by lia.
  destruct (lookup_lt_is_Some_2 evs N HN) as [eN HeN].
  assert (HbitN : N <> i -> validity_bit host eN = 0).
  { intros Hne. unfold validity_bit.
    rewrite (unused_lookup {| packetHeader := h; events := evs |} N eN Hun); auto. }
  assert (Hbit : validity_bit host e = 0) by (unfold validity_bit; now rewrite Hinv).
  assert (Hbit' : validity_bit host (marked host e) = 1)
    by (unfold validity_bit; now rewrite marked_is_valid).
  assert (Hn1 : I32T (eventNumber h + 1) = eventNumber h + 1)
    by (apply I32T_small; unfold is_int32; lia).
  assert (Hv1 : I32T (eventValid h + 1) = eventValid h + 1)
    by (apply I32T_small; unfold is_int32; lia).
  split; [|split].
  - split; cbn; [now rewrite length_insert | exact Hcap].
  - unfold bookkeeping_invariant. cbn. rewrite Hn1, Hv1.
    repeat split; try lia.
    replace (Z.to_nat (eventNumber h + 1)) with (S N) by lia.
    destruct (decide (i = N)) as [->|Hne].
    + rewrite (valid_sum_S N _ (marked host e))
        by (apply list_lookup_insert_eq; assumption).
      rewrite valid_sum_insert_ge by lia. lia.
    + rewrite (valid_sum_S N _ eN) by (rewrite list_lookup_insert_ne; auto).
      rewrite (valid_sum_insert_lt N i evs e) by (auto; lia).
      rewrite HbitN by auto. lia.
  - unfold unused_invalid in *. cbn [packetHeader events counted eventNumber] in *.
    rewrite Hn1. replace (Z.to_nat (eventNumber h + 1)) with (S N) by lia.
    rewrite drop_insert_lt by lia.
    rewrite Forall_lookup in *. intros j x Hj. rewrite lookup_drop in Hj.
    apply (Hun (S j) x). rewrite lookup_drop. rewrite <- Hj. f_equal. lia.
Qed.

Lemma invalidate_consistent (packet : caer_spike_event_packet) (i : nat)
    (e : caer_spike_event) :
  consistent packet -> events packet !! i = Some e ->
  caerSpikeEventIsValid host e = true ->
  consistent {| packetHeader := discounted (packetHeader packet);
           events := <[i := unmarked host e]> (events packet) |}.
Proof.
  intros ((Hlen & Hcap) & (Hv0 & Hvn & Hnc & Hsum) & Hun) He Hval.
  assert (Hi : (i < Z.to_nat (eventNumber (packetHeader packet)))%nat).
  { destruct (decide (i < Z.to_nat (eventNumber (packetHeader packet)))%nat) as [|Hge];
      [assumption|].
    rewrite (unused_lookup packet i e Hun) in Hval by (auto; lia). discriminate. }
  destruct packet as [h evs]. cbn [packetHeader events] in *.
  unfold INT32_MAX in Hcap.
  set (N := Z.to_nat (eventNumber h)) in *.
  assert (Hbit : validity_bit host e = 1) by (unfold validity_bit; now rewrite Hval).
  assert (Hbit' : validity_bit host (unmarked host e) = 0)
    by (unfold validity_bit; now rewrite unmarked_is_invalid).
  pose proof (valid_sum_insert_lt N i evs e (unmarked host e) Hi He) as Hnew.
  pose proof (valid_sum_nonneg N (<[i := unmarked host e]> evs)) as Hpos.
  assert (Hv1 : I32T (eventValid h - 1) = eventValid h - 1)
    by (apply I32T_small; unfold is_int32; lia).
  split; [|split].
  - split; cbn; [now rewrite length_insert | exact Hcap].
  - unfold bookkeeping_invariant. cbn. rewrite Hv1. fold N.
    repeat split; lia.
  - unfold unused_invalid in *. cbn [packetHeader events discounted eventNumber] in *.
    fold N. now rewrite drop_insert_lt by lia.
Qed.

Lemma step_consistent (op : bookkeeping_op) (packet : caer_spike_event_packet) :
  consistent packet -> disciplined host op packet ->
  exists packet' msgs, run_op host op packet = Some (packet', msgs) /\ consistent packet'.
Proof.
  intros Hex Hd. destruct op as [i|i]; cbn [disciplined] in Hd.
  - destruct Hd as [Hlt Hroom].
    destruct (lookup_lt_is_Some_2 _ _ Hlt) as [e He].
    rewrite (run_validate host packet i e He).
    destruct (caerSpikeEventIsValid host e) eqn:Hval; [eauto|].
    eexists _, _. split; [reflexivity|].
    destruct Hroom as [Hi Hn]; [unfold is_valid_at; now rewrite He|].
    now apply validate_consistent.
  - destruct (lookup_lt_is_Some_2 _ _ Hd) as [e He].
    rewrite (run_invalidate host packet i e He).
    destruct (caerSpikeEventIsValid host e) eqn:Hval; [|eauto].
    eexists _, _. split; [reflexivity|]. now apply invalidate_consistent.
Qed.

End Bookkeeping.

Lemma run_consistent (host : endianness) (ops : list bookkeeping_op) :
  forall packet : caer_spike_event_packet,
    consistent host packet -> disciplined_run host ops packet ->
    exists packet' msgs,
      run_ops host ops packet = Some (packet', msgs) /\ consistent host packet'.
Proof.
  induction ops as [|op ops IH]; intros packet Hc Hd; cbn [run_ops disciplined_run] in *.
  - eauto.
  - destruct Hd as [Hop Hrest].
    destruct (step_consistent host op packet Hc Hop) as (p1 & m1 & Hrun & Hc1).
    rewrite Hrun in *.
    destruct (IH p1 Hc1 Hrest) as (p2 & m2 & Hrun2 & Hc2).
    rewrite Hrun2. eauto.
Qed.

Lemma disciplined_run_prefix (host : endianness) (ops1 ops2 : list bookkeeping_op) :
  forall packet : caer_spike_event_packet,
    disciplined_run host (ops1 ++ ops2) packet -> disciplined_run host ops1 packet.
Proof.
  induction ops1 as [|op ops1 IH]; intros packet Hd; cbn [app disciplined_run] in *.
  - exact I.
  - destruct Hd as [Hop Hrest]. split; [assumption|].
    destruct (run_op host op packet) as [[p1 m1]|]; [now apply IH | assumption].
Qed.

(** C1, as amended.  Take a packet made of a header and [eventCapacity]
    records, in which 0 <= validCount <= eventCount <= capacity, validCount is
    the sum of the validity bits of the first eventCount records and every
    record from eventCount on is invalid.  Take a sequence of Validate and
    Invalidate operations on its records in which a record that is not valid
    is validated only at an index up to eventCount and only while eventCount
    is below the capacity.  Then every operation of the sequence returns, and
    the same properties hold after each of them. *)
Theorem bookkeeping_invariant_under_discipline
    (host : endianness) (packet : caer_spike_event_packet) (ops : list bookkeeping_op) :
  packet_wf packet -> bookkeeping_invariant host packet -> unused_invalid host packet ->
  disciplined_run host ops packet ->
  forall done rest : list bookkeeping_op, ops = done ++ rest ->
    exists packet' msgs,
      run_ops host done packet = Some (packet', msgs) /\
      packet_wf packet' /\ bookkeeping_invariant host packet' /\
      unused_invalid host packet'.
Proof.
  intros Hwf Hinv Hun Hd done rest ->.
  apply disciplined_run_prefix in Hd.
  destruct (run_consistent host done packet) as (p' & msgs & Hrun & Hc);
    [unfold consistent; auto | assumption |].
  exists p', msgs. split; [assumption | exact Hc].
Qed.

Lemma bookkeeping_invariant_under_discipline_witness :
  exists packet' msgs,
    run_ops LittleEndian [Validate 0; Validate 1; Invalidate 0; Validate 0]
      (zeroed_packet 12 0 0 3) = Some (packet', msgs) /\
    packet_wf packet' /\ bookkeeping_invariant LittleEndian packet' /\
    unused_invalid LittleEndian packet'.
Proof.
  refine (bookkeeping_invariant_under_discipline LittleEndian (zeroed_packet 12 0 0 3)
            [Validate 0; Validate 1; Invalidate 0; Validate 0] _ _ _ _
            [Validate 0; Validate 1; Invalidate 0; Validate 0] [] eq_refl).
  - split; [reflexivity | unfold INT32_MAX; simpl; lia].
  - unfold bookkeeping_invariant; simpl. repeat split; try lia; reflexivity.
  - unfold unused_invalid; simpl. repeat constructor.
  - simpl. unfold is_valid_at; simpl. repeat split; try lia; intros; try discriminate.
Defined.

(** C1, as stated, fails, also from a zeroed packet, where the invariant
    holds and no record is valid.  On a packet of one record, validate the
    record, invalidate it and validate it again: eventCount is 2, above the
    capacity.  On a packet of three records, validate the last one:
    eventCount and validCount are 1, and the first record is not valid. *)
Lemma bookkeeping_invariant_broken :
  (packet_wf (zeroed_packet 12 0 0 1) /\
   bookkeeping_invariant LittleEndian (zeroed_packet 12 0 0 1) /\
   unused_invalid LittleEndian (zeroed_packet 12 0 0 1) /\
   exists packet',
     run_ops LittleEndian [Validate 0; Invalidate 0; Validate 0] (zeroed_packet 12 0 0 1) =
       Some (packet', []) /\
     eventNumber (packetHeader packet') = 2 /\
     eventCapacity (packetHeader packet') = 1 /\
     ~ bookkeeping_invariant LittleEndian packet') /\
  (packet_wf (zeroed_packet 12 0 0 3) /\
   bookkeeping_invariant LittleEndian (zeroed_packet 12 0 0 3) /\
   unused_invalid LittleEndian (zeroed_packet 12 0 0 3) /\
   exists packet',
     run_ops LittleEndian [Validate 2] (zeroed_packet 12 0 0 3) = Some (packet', []) /\
     eventValid (packetHeader packet') = 1 /\
     valid_sum LittleEndian (Z.to_nat (eventNumber (packetHeader packet'))) (events packet') = 0 /\
     ~ bookkeeping_invariant LittleEndian packet').
Proof.
  split.
  - split; [split; [reflexivity | unfold INT32_MAX; simpl; lia]|].
    split; [unfold bookkeeping_invariant; simpl; repeat split; try lia; reflexivity|].
    split; [unfold unused_invalid; simpl; repeat constructor|].
    eexists. split; [reflexivity|]. split; [reflexivity|]. split; [reflexivity|].
    unfold bookkeeping_invariant. intros (_ & _ & H & _). vm_compute in H.
    exact (H eq_refl).
  - split; [split; [reflexivity | unfold INT32_MAX; simpl; lia]|].
    split; [unfold bookkeeping_invariant; simpl; repeat split; try lia; reflexivity|].
    split; [unfold unused_invalid; simpl; repeat constructor|].
    eexists. split; [reflexivity|]. split; [reflexivity|]. split; [reflexivity|].
    unfold bookkeeping_invariant. intros (_ & _ & _ & H). vm_compute in H. discriminate.
Qed.

(** ** Counting *)

Section Counting.
Variable host : endianness.

Lemma is_valid_at_insert (h h' : caer_event_packet_header)
    (evs : list caer_spike_event) (i j : nat) (e : caer_spike_event) :
  (i < length evs)%nat ->
  is_valid_at host {| packetHeader := h'; events := <[i := e]> evs |} j =
    if decide (j = i) then caerSpikeEventIsValid host e
    else is_valid_at host {| packetHeader := h; events := evs |} j.
Proof.
  intros Hlt. unfold is_valid_at. cbn [events].
  destruct (decide (j = i)) as [->|Hne].
  - now rewrite list_lookup_insert_eq.
  - now rewrite list_lookup_insert_ne.
Qed.

Lemma run_validates (ks : list nat) :
  forall packet : caer_spike_event_packet,
    NoDup ks ->
    Forall (fun k => (k < length (events packet))%nat /\
                     is_valid_at host packet k = false) ks ->
    - 2 ^ 31 <= eventNumber (packetHeader packet) ->
    eventNumber (packetHeader packet) + Z.of_nat (length ks) < 2 ^ 31 ->
    - 2 ^ 31 <= eventValid (packetHeader packet) ->
    eventValid (packetHeader packet) + Z.of_nat (length ks) < 2 ^ 31 ->
    exists packet',
      run_ops host (Validate <$> ks) packet = Some (packet', []) /\
      eventNumber (packetHeader packet') =
        eventNumber (packetHeader packet) + Z.of_nat (length ks) /\
      eventValid (packetHeader packet') =
        eventValid (packetHeader packet) + Z.of_nat (length ks) /\
      eventCapacity (packetHeader packet') = eventCapacity (packetHeader packet) /\
      length (events packet') = length (events packet) /\
      (forall j : nat, is_valid_at host packet' j =
                         if decide (j ∈ ks) then true else is_valid_at host packet j).
Proof.
  induction ks as [|k ks IH]; intros packet Hnd Hall Hn0 Hn1 Hv0 Hv1.
  - exists packet. cbn. repeat split; lia.
  - apply NoDup_cons in Hnd as [Hk Hnd].
    apply Forall_cons in Hall as [[Hlt Hinv] Hall].
    destruct (lookup_lt_is_Some_2 _ _ Hlt) as [e He].
    cbn [fmap list_fmap run_ops length] in *.
    rewrite (run_validate host packet k e He).
    assert (Hval : caerSpikeEventIsValid host e = false)
      by (unfold is_valid_at in Hinv; now rewrite He in Hinv).
    rewrite Hval.
    set (p1 := {| packetHeader := counted (packetHeader packet);
                  events := <[k := marked host e]> (events packet) |}).
    assert (Hlen1 : length (events p1) = length (events packet))
      by apply length_insert.
    assert (Hat : forall j, is_valid_at host p1 j =
               if decide (j = k) then true else is_valid_at host packet j).
    { intros j. subst p1. destruct packet as [h evs].
      rewrite (is_valid_at_insert h) by assumption.
      now rewrite marked_is_valid. }
    assert (Hn : eventNumber (packetHeader p1) = eventNumber (packetHeader packet) + 1)
      by (cbn; apply I32T_small; unfold is_int32; lia).
    assert (Hv : eventValid (packetHeader p1) = eventValid (packetHeader packet) + 1)
      by (cbn; apply I32T_small; unfold is_int32; lia).
    destruct (IH p1) as (p2 & Hrun & Hn2 & Hv2 & Hc2 & Hlen2 & Hat2); try lia; auto.
    { rewrite Forall_forall in *. intros j Hj. destruct (Hall j Hj) as [Hjlt Hjinv].
      split; [lia|]. rewrite Hat.
      destruct (decide (j = k)) as [->|]; [contradiction | assumption]. }
    fold (fmap (M := list) Validate ks). rewrite Hrun.
    exists p2. split; [reflexivity|]. repeat split; try lia.
    + rewrite Hc2. reflexivity.
    + intros j. rewrite Hat2, Hat.
      destruct (decide (j ∈ ks)) as [Hin|Hnin].
      * rewrite decide_True; [reflexivity | now right].
      * destruct (decide (j = k)) as [->|Hne].
        -- rewrite decide_True; [reflexivity | now left].
        -- rewrite decide_False; [reflexivity|].
           intros Hin. apply elem_of_cons in Hin as [|]; contradiction.
Qed.

Lemma run_invalidates (js : list nat) :
  forall packet : caer_spike_event_packet,
    NoDup js ->
    Forall (fun j => is_valid_at host packet j = true) js ->
    eventValid (packetHeader packet) < 2 ^ 31 ->
    - 2 ^ 31 <= eventValid (packetHeader packet) - Z.of_nat (length js) ->
    exists packet',
      run_ops host (Invalidate <$> js) packet = Some (packet', []) /\
      eventNumber (packetHeader packet') = eventNumber (packetHeader packet) /\
      eventValid (packetHeader packet') =
        eventValid (packetHeader packet) - Z.of_nat (length js) /\
      eventCapacity (packetHeader packet') = eventCapacity (packetHeader packet) /\
      length (events packet') = length (events packet) /\
      (forall i : nat, is_valid_at host packet' i =
                         if decide (i ∈ js) then false else is_valid_at host packet i).
Proof.
  induction js as [|k js IH]; intros packet Hnd Hall Hv0 Hv1.
  - exists packet. cbn. repeat split; lia.
  - apply NoDup_cons in Hnd as [Hk Hnd].
    apply Forall_cons in Hall as [Hvalid Hall].
    assert (He : exists e, events packet !! k = Some e /\
                           caerSpikeEventIsValid host e = true).
    { unfold is_valid_at in Hvalid. destruct (events packet !! k) as [e|]; [eauto|].
      discriminate. }
    destruct He as (e & He & Hval).
    assert (Hlt : (k < length (events packet))%nat) by (eapply lookup_lt_Some; eauto).
    cbn [fmap list_fmap run_ops length] in *.
    rewrite (run_invalidate host packet k e He), Hval.
    set (p1 := {| packetHeader := discounted (packetHeader packet);
                  events := <[k := unmarked host e]> (events packet) |}).
    assert (Hlen1 : length (events p1) = length (events packet))
      by apply length_insert.
    assert (Hat : forall j, is_valid_at host p1 j =
               if decide (j = k) then false else is_valid_at host packet j).
    { intros j. subst p1. destruct packet as [h evs].
      rewrite (is_valid_at_insert h) by assumption.
      now rewrite unmarked_is_invalid. }
    assert (Hv : eventValid (packetHeader p1) = eventValid (packetHeader packet) - 1)
      by (cbn; apply I32T_small; unfold is_int32; lia).
    destruct (IH p1) as (p2 & Hrun & Hn2 & Hv2 & Hc2 & Hlen2 & Hat2); try lia; auto.
    { rewrite Forall_forall in *. intros j Hj. rewrite Hat.
      destruct (decide (j = k)) as [->|]; [contradiction | auto]. }
    fold (fmap (M := list) Invalidate js). rewrite Hrun.
    exists p2. split; [reflexivity|]. repeat split; try lia.
    + rewrite Hn2. reflexivity.
    + rewrite Hc2. reflexivity.
    + intros j. rewrite Hat2, Hat.
      destruct (decide (j ∈ js)) as [Hin|Hnin].
      * rewrite decide_True; [reflexivity | now right].
      * destruct (decide (j = k)) as [->|Hne].
        -- rewrite decide_True; [reflexivity | now left].
        -- rewrite decide_False; [reflexivity|].
           intros Hin. apply elem_of_cons in Hin as [|]; contradiction.
Qed.

Lemma run_ops_app (ops1 ops2 : list bookkeeping_op) :
  forall (packet p1 p2 : caer_spike_event_packet) (m1 m2 : list log_entry),
    run_ops host ops1 packet = Some (p1, m1) ->
    run_ops host ops2 p1 = Some (p2, m2) ->
    run_ops host (ops1 ++ ops2) packet = Some (p2, m1 ++ m2).
Proof.
  induction ops1 as [|op ops1 IH]; intros packet p1 p2 m1 m2 H1 H2; cbn [run_ops app] in *.
  - injection H1 as <- <-. exact H2.
  - destruct (run_op host op packet) as [[q m]|]; [|discriminate].
    destruct (run_ops host ops1 q) as [[q' m']|] eqn:Hq; [|discriminate].
    injection H1 as <- <-.
    rewrite (IH q q' p2 m' m2 Hq H2). now rewrite app_assoc.
Qed.

Lemma distinct_slots_bound (ks : list nat) (n : nat) :
  NoDup ks -> Forall (fun k => (k < n)%nat) ks -> (length ks <= n)%nat.
Proof.
  intros Hnd Hall. rewrite <- (length_seq n 0).
  apply submseteq_length, NoDup_submseteq; [assumption|].
  intros k Hk. rewrite Forall_forall in Hall. apply elem_of_seq. specialize (Hall k Hk). lia.
Qed.

End Counting.

(** C2.  Take a packet of N records (a header and [eventCapacity] = N
    records), all of them invalid, with eventCount = validCount = 0.  After
    Validate on k distinct slots, eventCount = k and validCount = k, and k is
    at most N; after Invalidate on j distinct slots among those, eventCount
    = k and validCount = k - j.  No call logs anything. *)
Theorem counts_after_validate_then_invalidate
    (host : endianness) (packet : caer_spike_event_packet) (ks js : list nat) :
  packet_wf packet ->
  eventNumber (packetHeader packet) = 0 ->
  eventValid (packetHeader packet) = 0 ->
  Forall (fun e => caerSpikeEventIsValid host e = false) (events packet) ->
  NoDup ks -> Forall (fun k => (k < length (events packet))%nat) ks ->
  NoDup js -> js ⊆ ks ->
  exists p1 p2 : caer_spike_event_packet,
    run_ops host (Validate <$> ks) packet = Some (p1, []) /\
    eventNumber (packetHeader p1) = Z.of_nat (length ks) /\
    eventValid (packetHeader p1) = Z.of_nat (length ks) /\
    run_ops host (Invalidate <$> js) p1 = Some (p2, []) /\
    run_ops host ((Validate <$> ks) ++ (Invalidate <$> js)) packet = Some (p2, []) /\
    eventNumber (packetHeader p2) = Z.of_nat (length ks) /\
    eventValid (packetHeader p2) = Z.of_nat (length ks) - Z.of_nat (length js) /\
    (length js <= length ks <= length (events packet))%nat.
Proof.
  intros [Hlen Hcap] Hn Hv Hinv Hndk Hks Hndj Hsub.
  unfold INT32_MAX in Hcap.
  pose proof (distinct_slots_bound ks _ Hndk Hks) as Hk.
  assert (Hj : (length js <= length ks)%nat)
    by (apply submseteq_length, NoDup_submseteq; assumption).
  destruct (run_validates host ks packet) as (p1 & Hrun1 & Hn1 & Hv1 & Hc1 & Hl1 & Hat1);
    try lia; auto.
  { rewrite Forall_forall in Hks. rewrite Forall_forall.
    intros k Hin. split; [now apply Hks|].
    unfold is_valid_at. destruct (events packet !! k) as [e|] eqn:He; [|reflexivity].
    exact (Forall_lookup_1 _ _ _ _ Hinv He). }
  destruct (run_invalidates host js p1) as (p2 & Hrun2 & Hn2 & Hv2 & Hc2 & Hl2 & Hat2);
    try lia; auto.
  { rewrite Forall_forall. intros j Hin. rewrite Hat1.
    rewrite decide_True; [reflexivity | now apply Hsub]. }
  exists p1, p2. repeat split; try lia; try assumption.
  apply (run_ops_app host _ _ _ _ _ _ _ Hrun1 Hrun2).
Qed.

Lemma counts_after_validate_then_invalidate_witness :
  exists p1 p2 : caer_spike_event_packet,
    run_ops BigEndian (Validate <$> [3; 0; 2]%nat) (zeroed_packet 12 0 0 4) = Some (p1, []) /\
    eventNumber (packetHeader p1) = 3 /\
    eventValid (packetHeader p1) = 3 /\
    run_ops BigEndian (Invalidate <$> [2; 3]%nat) p1 = Some (p2, []) /\
    run_ops BigEndian ((Validate <$> [3; 0; 2]%nat) ++ (Invalidate <$> [2; 3]%nat))
      (zeroed_packet 12 0 0 4) = Some (p2, []) /\
    eventNumber (packetHeader p2) = 3 /\
    eventValid (packetHeader p2) = 3 - 2 /\
    (2 <= 3 <= 4)%nat.
Proof.
  refine (counts_after_validate_then_invalidate BigEndian (zeroed_packet 12 0 0 4)
            [3; 0; 2]%nat [2; 3]%nat _ eq_refl eq_refl _ _ _ _ _).
  - split; [reflexivity | unfold INT32_MAX; simpl; lia].
  - simpl. repeat constructor.
  - apply (bool_decide_unpack _). vm_compute. exact I.
  - simpl. repeat constructor; lia.
  - apply (bool_decide_unpack _). vm_compute. exact I.
  - apply (bool_decide_unpack _). vm_compute. exact I.
Defined.

(** ** Traversal of the valid events *)

Section Traversal.
Variable host : endianness.
Context {A : Type}.
Variable body : Z -> nat -> caer_spike_event_packet * A -> caer_spike_event_packet * A.
Variable packet : caer_spike_event_packet.

(** The body leaves the packet alone. *)
Hypothesis body_reads : forall c ptr st, fst (body c ptr st) = fst st.
Hypothesis packet_array : packet_wf packet.
Hypothesis count_in_capacity :
  0 <= eventNumber (packetHeader packet) <= eventCapacity (packetHeader packet).

Local Abbreviation at_index := (Model.at_index body packet).
Local Abbreviation valid_from := (Model.valid_from host packet).

Lemma one_round (c : Z) (a : A) :
  0 <= c < eventNumber (packetHeader packet) ->
  iterator_valid_body host body c (packet, a) =
    Some (packet, if is_valid_at host packet (Z.to_nat c) then at_index a c else a).
Proof.
  intros Hc. destruct packet_array as [Hlen Hcap].
  unfold iterator_valid_body, caerSpikeEventPacketGetEvent,
    caerEventPacketHeaderGetEventCapacity. cbn [fst].
  destruct (Z.ltb_spec c 0); [lia|].
  destruct (Z.geb_spec c (eventCapacity (packetHeader packet))); [lia|].
  cbn [orb fst]. unfold is_valid_at.
  destruct (lookup_lt_is_Some_2 (events packet) (Z.to_nat c)) as [e He]; [lia|].
  rewrite He. destruct (caerSpikeEventIsValid host e); cbn [negb]; [|reflexivity].
  f_equal. unfold at_index.
  rewrite (surjective_pairing (body c (Z.to_nat c) (packet, a))).
  now rewrite body_reads.
Qed.

Lemma valid_from_cons (c n : Z) :
  0 < n ->
  valid_from c n =
    (if is_valid_at host packet (Z.to_nat c) then [c] else []) ++ valid_from (c + 1) (n - 1).
Proof.
  intros Hn. unfold valid_from. rewrite seqZ_cons by lia.
  replace (Z.succ c) with (c + 1) by lia. replace (Z.pred n) with (n - 1) by lia.
  rewrite filter_cons.
  destruct (is_valid_at host packet (Z.to_nat c)) eqn:Hv.
  - rewrite decide_True by reflexivity. reflexivity.
  - rewrite decide_False by discriminate. reflexivity.
Qed.

Lemma valid_from_snoc (c : Z) :
  0 <= c ->
  valid_from 0 (c + 1) =
    valid_from 0 c ++ (if is_valid_at host packet (Z.to_nat c) then [c] else []).
Proof.
  intros Hc. unfold valid_from.
  replace (c + 1) with (Z.of_nat (S (Z.to_nat c))) by lia.
  rewrite seqZ_S, filter_app. replace (Z.of_nat (Z.to_nat c)) with c by lia.
  f_equal. replace (0 + c) with c by lia. rewrite filter_cons, filter_nil.
  destruct (is_valid_at host packet (Z.to_nat c)) eqn:Hv.
  - rewrite decide_True by reflexivity. reflexivity.
  - rewrite decide_False by discriminate. reflexivity.
Qed.

Lemma forward_loop (m : nat) :
  forall (fuel : nat) (c : Z) (a : A),
    0 <= c -> c + Z.of_nat m = eventNumber (packetHeader packet) -> (m < fuel)%nat ->
    iterator_valid_loop host body fuel c (packet, a) =
      Finished (packet, fold_left at_index (valid_from c (Z.of_nat m)) a).
Proof.
  destruct packet_array as [Hlen Hcap]. unfold INT32_MAX in Hcap.
  induction m as [|m IH]; intros fuel c a Hc Hn Hfuel;
    (destruct fuel as [|fuel]; [lia|]);
    cbn [iterator_valid_loop fst]; unfold caerEventPacketHeaderGetEventNumber.
  - destruct (Z.ltb_spec c (eventNumber (packetHeader packet))); [lia|].
    unfold valid_from. now rewrite seqZ_nil by lia.
  - destruct (Z.ltb_spec c (eventNumber (packetHeader packet))); [|lia].
    rewrite one_round by lia.
    rewrite I32T_small by (unfold is_int32; lia).
    rewrite IH by lia.
    rewrite (valid_from_cons c (Z.of_nat (S m))) by lia.
    replace (Z.of_nat (S m) - 1) with (Z.of_nat m) by lia.
    now destruct (is_valid_at host packet (Z.to_nat c)).
Qed.

Lemma reverse_loop (m : nat) :
  forall (fuel : nat) (c : Z) (a : A),
    c + 1 = Z.of_nat m -> c < eventNumber (packetHeader packet) -> (m < fuel)%nat ->
    reverse_iterator_valid_loop host body fuel c (packet, a) =
      Finished (packet, fold_left at_index (rev (valid_from 0 (c + 1))) a).
Proof.
  destruct packet_array as [Hlen Hcap]. unfold INT32_MAX in Hcap.
  induction m as [|m IH]; intros fuel c a Hc Hn Hfuel;
    (destruct fuel as [|fuel]; [lia|]);
    cbn [reverse_iterator_valid_loop fst].
  - destruct (Z.geb_spec c 0); [lia|].
    unfold valid_from. now rewrite seqZ_nil by lia.
  - destruct (Z.geb_spec c 0); [|lia].
    rewrite one_round by lia.
    rewrite I32T_small by (unfold is_int32; lia).
    rewrite IH by lia.
    replace (c - 1 + 1) with c by lia.
    rewrite (valid_from_snoc c) by lia. rewrite rev_app_distr.
    now destruct (is_valid_at host packet (Z.to_nat c)).
Qed.

Lemma forward_traversal (fuel : nat) (a : A) :
  (Z.to_nat (eventNumber (packetHeader packet)) < fuel)%nat ->
  CAER_SPIKE_ITERATOR_VALID host body fuel packet a =
    Finished (packet, fold_left at_index (valid_indices host packet) a).
Proof.
  intros Hfuel. unfold CAER_SPIKE_ITERATOR_VALID.
  rewrite (forward_loop (Z.to_nat (eventNumber (packetHeader packet)))) by lia.
  unfold valid_from, valid_indices.
  now replace (Z.of_nat (Z.to_nat (eventNumber (packetHeader packet))))
    with (eventNumber (packetHeader packet)) by lia.
Qed.

Lemma reverse_traversal (fuel : nat) (a : A) :
  (Z.to_nat (eventNumber (packetHeader packet)) < fuel)%nat ->
  CAER_SPIKE_REVERSE_ITERATOR_VALID host body fuel packet a =
    Finished (packet, fold_left at_index (rev (valid_indices host packet)) a).
Proof.
  intros Hfuel. destruct packet_array as [Hlen Hcap]. unfold INT32_MAX in Hcap.
  unfold CAER_SPIKE_REVERSE_ITERATOR_VALID, caerEventPacketHeaderGetEventNumber.
  rewrite I32T_small by (unfold is_int32; lia).
  rewrite (reverse_loop (Z.to_nat (eventNumber (packetHeader packet)))) by lia.
  unfold valid_from, valid_indices.
  now replace (eventNumber (packetHeader packet) - 1 + 1)
    with (eventNumber (packetHeader packet)) by lia.
Qed.

End Traversal.

Lemma visit_collects (packet : caer_spike_event_packet) (l acc : list Z) :
  fold_left (at_index visit packet) l acc = acc ++ l.
Proof.
  revert acc. induction l as [|i l IH]; intros acc; cbn [fold_left].
  - now rewrite app_nil_r.
  - rewrite IH. unfold at_index, visit. cbn [fst snd]. now rewrite <- app_assoc.
Qed.

Lemma valid_indices_elem (host : endianness) (packet : caer_spike_event_packet) (i : Z) :
  i ∈ valid_indices host packet <->
  0 <= i < eventNumber (packetHeader packet) /\ is_valid_at host packet (Z.to_nat i) = true.
Proof.
  unfold valid_indices. rewrite list_elem_of_filter, elem_of_seqZ. intuition lia.
Qed.

Lemma filter_sorted (P : Z -> Prop) `{!forall x, Decision (P x)} (l : list Z) :
  StronglySorted Z.lt l -> StronglySorted Z.lt (filter P l).
Proof.
  induction 1 as [|x l Hs IH Hall]; [constructor|].
  rewrite filter_cons. destruct (decide (P x)); [|assumption].
  constructor; [assumption|].
  rewrite Forall_forall in *. intros y Hy. apply Hall.
  apply list_elem_of_filter in Hy. tauto.
Qed.

Lemma seqZ_sorted (n : nat) : forall m : Z, StronglySorted Z.lt (seqZ m (Z.of_nat n)).
Proof.
  induction n as [|n IH]; intros m.
  - rewrite seqZ_nil by lia. constructor.
  - rewrite seqZ_cons by lia. replace (Z.pred (Z.of_nat (S n))) with (Z.of_nat n) by lia.
    constructor; [apply IH|].
    rewrite Forall_forall. intros y Hy. apply elem_of_seqZ in Hy. lia.
Qed.

Lemma valid_indices_sorted (host : endianness) (packet : caer_spike_event_packet) :
  StronglySorted Z.lt (valid_indices host packet).
Proof.
  unfold valid_indices. apply filter_sorted.
  destruct (Z.le_gt_cases 0 (eventNumber (packetHeader packet))).
  - rewrite <- (Z2Nat.id (eventNumber (packetHeader packet))) by assumption.
    apply seqZ_sorted.
  - rewrite seqZ_nil by lia. constructor.
Qed.

(** C8, as amended.  For every packet made of a header and [eventCapacity]
    records with 0 <= eventCount <= capacity, every loop body that leaves the
    packet alone and every bound above eventCount on the number of rounds: the
    forward loop over the valid events ends with the packet as it was and
    has run the body on the indices of [0, eventCount) whose record has its
    validity bit set, each once, in ascending order; the reverse loop ends
    with the packet as it was and has run the body on the same indices in
    descending order.  With eventCount = 3 and the slots valid, invalid,
    valid, the indices are 0 then 2, and 2 then 0. *)
Theorem valid_traversal_order
    (host : endianness) (A : Type)
    (body : Z -> nat -> caer_spike_event_packet * A -> caer_spike_event_packet * A)
    (packet : caer_spike_event_packet) (fuel : nat) (a : A) :
  packet_wf packet ->
  0 <= eventNumber (packetHeader packet) <= eventCapacity (packetHeader packet) ->
  (forall c ptr st, fst (body c ptr st) = fst st) ->
  (Z.to_nat (eventNumber (packetHeader packet)) < fuel)%nat ->
  CAER_SPIKE_ITERATOR_VALID host body fuel packet a =
    Finished (packet, fold_left (at_index body packet) (valid_indices host packet) a) /\
  CAER_SPIKE_REVERSE_ITERATOR_VALID host body fuel packet a =
    Finished (packet, fold_left (at_index body packet) (rev (valid_indices host packet)) a) /\
  CAER_SPIKE_ITERATOR_VALID host visit fuel packet [] =
    Finished (packet, valid_indices host packet) /\
  CAER_SPIKE_REVERSE_ITERATOR_VALID host visit fuel packet [] =
    Finished (packet, rev (valid_indices host packet)) /\
  (forall i : Z,
     i ∈ valid_indices host packet <->
     0 <= i < eventNumber (packetHeader packet) /\
     is_valid_at host packet (Z.to_nat i) = true) /\
  StronglySorted Z.lt (valid_indices host packet) /\
  (eventNumber (packetHeader packet) = 3 ->
   is_valid_at host packet 0 = true -> is_valid_at host packet 1 = false ->
   is_valid_at host packet 2 = true ->
   CAER_SPIKE_ITERATOR_VALID host visit fuel packet [] = Finished (packet, [0; 2]) /\
   CAER_SPIKE_REVERSE_ITERATOR_VALID host visit fuel packet [] = Finished (packet, [2; 0])).
Proof.
  intros Hwf Hcount Hreads Hfuel.
  assert (Hfwd : CAER_SPIKE_ITERATOR_VALID host visit fuel packet [] =
                   Finished (packet, valid_indices host packet)).
  { rewrite (forward_traversal host visit packet) by (auto; reflexivity).
    now rewrite visit_collects. }
  assert (Hrev : CAER_SPIKE_REVERSE_ITERATOR_VALID host visit fuel packet [] =
                   Finished (packet, rev (valid_indices host packet))).
  { rewrite (reverse_traversal host visit packet) by (auto; reflexivity).
    now rewrite visit_collects. }
  split; [now apply forward_traversal|].
  split; [now apply reverse_traversal|].
  split; [exact Hfwd|]. split; [exact Hrev|].
  split; [apply valid_indices_elem|]. split; [apply valid_indices_sorted|].
  intros H3 H0 H1 H2. rewrite Hfwd, Hrev.
  assert (Hidx : valid_indices host packet = [0; 2]).
  { unfold valid_indices. rewrite H3. change (seqZ 0 3) with [0; 1; 2].
    rewrite filter_cons, decide_True by exact H0.
    rewrite filter_cons, decide_False by (change (Z.to_nat 1) with 1%nat; rewrite H1; discriminate).
    rewrite filter_cons, decide_True by exact H2.
    reflexivity. }
  now rewrite Hidx.
Qed.

Lemma valid_traversal_order_witness :
  let packet :=
    {| packetHeader := {| eventType := 12; eventSource := 1; eventTSOverflow := 0;
                          eventCapacity := 4; eventNumber := 3; eventValid := 2 |};
       events := [ {| data := 0x2043; timestamp := 10 |};
                   {| data := 0x2042; timestamp := 11 |};
                   {| data := 0x0001; timestamp := 12 |};
                   zero_event ] |} in
  CAER_SPIKE_ITERATOR_VALID LittleEndian visit 4 packet [] = Finished (packet, [0; 2]) /\
  CAER_SPIKE_REVERSE_ITERATOR_VALID LittleEndian visit 4 packet [] = Finished (packet, [2; 0]).
Proof.
  intros packet.
  refine (proj2 (proj2 (proj2 (proj2 (proj2 (proj2
           (valid_traversal_order LittleEndian (list Z) visit packet 4 [] _ _ _ _))))))
           eq_refl eq_refl eq_refl eq_refl).
  - split; [reflexivity | unfold INT32_MAX; simpl; lia].
  - simpl. lia.
  - reflexivity.
  - simpl. lia.
Defined.

(** C8, as stated, fails: not every packet can be traversed.  Validate,
    Invalidate and Validate again on the one record of a zeroed packet
    return a packet with eventCount 2 above its capacity 1, whose record 0 is
    valid: the index to visit is 0.  The forward loop visits it, then asks
    for the element of index 1, gets [NULL] and dereferences it in
    [caerSpikeEventIsValid]; the reverse loop does so in its first round.
    Whatever the bound on the rounds, neither loop finishes. *)
Lemma valid_traversal_broken :
  exists packet : caer_spike_event_packet,
    run_ops LittleEndian [Validate 0; Invalidate 0; Validate 0] (zeroed_packet 12 0 0 1) =
      Some (packet, []) /\
    eventNumber (packetHeader packet) = 2 /\
    eventCapacity (packetHeader packet) = 1 /\
    valid_indices LittleEndian packet = [0] /\
    CAER_SPIKE_ITERATOR_VALID LittleEndian visit 3 packet [] = Fault /\
    CAER_SPIKE_REVERSE_ITERATOR_VALID LittleEndian visit 3 packet [] = Fault /\
    (forall (fuel : nat) (st : caer_spike_event_packet * list Z),
       CAER_SPIKE_ITERATOR_VALID LittleEndian visit fuel packet [] <> Finished st) /\
    (forall (fuel : nat) (st : caer_spike_event_packet * list Z),
       CAER_SPIKE_REVERSE_ITERATOR_VALID LittleEndian visit fuel packet [] <> Finished st).
Proof.
  eexists. split; [reflexivity|].
  split; [reflexivity|]. split; [reflexivity|]. split; [reflexivity|].
  split; [reflexivity|]. split; [reflexivity|]. split.
  - intros [|[|fuel]] st H; vm_compute in H; discriminate.
  - intros [|fuel] st H; vm_compute in H; discriminate.
Qed.

(** * Further properties of the codec *)

(** The masks of the three sub-fields as runs of ones. *)
Ltac subfield_masks :=
  destruct masks_ones as (_ & -> & -> & ->);
  unfold SPIKE_SOURCE_CORE_ID_SHIFT, SPIKE_CHIP_ID_SHIFT, SPIKE_NEURON_ID_SHIFT in *.

Lemma le32toh_involutive (host : endianness) (x : Z) :
  le32toh host (le32toh host x) = U32T x.
Proof. exact (le32toh_htole32 host x). Qed.

Lemma le32toh_inj (host : endianness) (a b : Z) :
  is_uint32 a -> is_uint32 b -> le32toh host a = le32toh host b -> a = b.
Proof.
  intros Ha Hb Heq.
  rewrite <- (U32T_small a Ha), <- (U32T_small b Hb).
  rewrite <- !(le32toh_involutive host). now rewrite Heq.
Qed.

Lemma event_eq (e1 e2 : caer_spike_event) :
  data e1 = data e2 -> timestamp e1 = timestamp e2 -> e1 = e2.
Proof. destruct e1, e2. cbn. now intros -> ->. Qed.

Lemma read_field_value (host : endianness) (VAR s k : Z) :
  0 <= s -> 0 <= k ->
  GET_NUMBITS32 host VAR s (Z.ones k) = (le32toh host VAR / 2 ^ s) mod 2 ^ k.
Proof.
  intros Hs Hk. unfold GET_NUMBITS32.
  now rewrite Z.land_ones, Z.shiftr_div_pow2 by lia.
Qed.

Lemma get_written_field_mod (host : endianness) (VAR s k v : Z) :
  0 <= s -> 0 <= k -> s + k <= 32 ->
  GET_NUMBITS32 host
    (SET_NUMBITS32 host (CLEAR_NUMBITS32 host VAR s (Z.ones k)) s (Z.ones k) v)
    s (Z.ones k) = v mod 2 ^ k.
Proof.
  intros Hs Hk Hsk. apply Z.bits_inj'. intros i Hi.
  rewrite read_field_testbit, write_field_testbit by lia.
  rewrite Z.testbit_mod_pow2 by lia.
  split_ltb; simpl; try lia. f_equal. lia.
Qed.

Lemma write_write_commute (host : endianness) (VAR s k v s' k' v' : Z) :
  0 <= s -> 0 <= k -> s + k <= 32 -> 0 <= s' -> 0 <= k' -> s' + k' <= 32 ->
  s' + k' <= s \/ s + k <= s' ->
  le32toh host
    (SET_NUMBITS32 host
       (CLEAR_NUMBITS32 host
          (SET_NUMBITS32 host (CLEAR_NUMBITS32 host VAR s (Z.ones k)) s (Z.ones k) v)
          s' (Z.ones k')) s' (Z.ones k') v') =
  le32toh host
    (SET_NUMBITS32 host
       (CLEAR_NUMBITS32 host
          (SET_NUMBITS32 host (CLEAR_NUMBITS32 host VAR s' (Z.ones k')) s' (Z.ones k') v')
          s (Z.ones k)) s (Z.ones k) v).
Proof.
  intros Hs Hk Hsk Hs' Hk' Hsk' Hdisj. apply Z.bits_inj'. intros i Hi.
  rewrite !write_field_testbit by lia.
  split_ltb; simpl; try reflexivity; lia.
Qed.

Lemma write_write_same (host : endianness) (VAR s k v v' : Z) :
  0 <= s -> 0 <= k -> s + k <= 32 ->
  le32toh host
    (SET_NUMBITS32 host
       (CLEAR_NUMBITS32 host
          (SET_NUMBITS32 host (CLEAR_NUMBITS32 host VAR s (Z.ones k)) s (Z.ones k) v)
          s (Z.ones k)) s (Z.ones k) v') =
  le32toh host
    (SET_NUMBITS32 host (CLEAR_NUMBITS32 host VAR s (Z.ones k)) s (Z.ones k) v').
Proof.
  intros Hs Hk Hsk. apply Z.bits_inj'. intros i Hi.
  rewrite !write_field_testbit by lia.
  split_ltb; simpl; try reflexivity; lia.
Qed.

Lemma written_range (host : endianness) (VAR s m v : Z) :
  is_uint32 VAR ->
  is_uint32 (SET_NUMBITS32 host (CLEAR_NUMBITS32 host VAR s m) s m v).
Proof. intros H. now apply SET_NUMBITS32_range, CLEAR_NUMBITS32_range. Qed.

Lemma getters_bounds_aux (host : endianness) (event : caer_spike_event) :
  0 <= (le32toh host (data event) / 2 ^ 1) mod 2 ^ 5 < 2 ^ 5 /\
  0 <= (le32toh host (data event) / 2 ^ 6) mod 2 ^ 6 < 2 ^ 6 /\
  0 <= (le32toh host (data event) / 2 ^ 12) mod 2 ^ 20 < 2 ^ 20.
Proof. repeat split; apply Z.mod_pos_bound; lia. Qed.

(** X1.  Whatever the 8 bytes of a record are, the getters return values
    of the ranges of the sub-fields: a source core id in [0,31], a chip id in
    [0,63], a neuron id in [0,2^20-1], and a timestamp that is an
    [int32_t]. *)
Theorem getters_in_range (host : endianness) (event : caer_spike_event) :
  0 <= caerSpikeEventGetSourceCoreID host event <= 31 /\
  0 <= caerSpikeEventGetChipID host event <= 63 /\
  0 <= caerSpikeEventGetNeuronID host event <= 2 ^ 20 - 1 /\
  INT32_MIN <= caerSpikeEventGetTimestamp host event <= INT32_MAX.
Proof.
  unfold caerSpikeEventGetSourceCoreID, caerSpikeEventGetChipID,
    caerSpikeEventGetNeuronID, caerSpikeEventGetTimestamp.
  subfield_masks. rewrite !read_field_value by lia.
  pose proof (Z.mod_pos_bound (le32toh host (data event) / 2 ^ 1) (2 ^ 5) ltac:(lia)).
  pose proof (Z.mod_pos_bound (le32toh host (data event) / 2 ^ 6) (2 ^ 6) ltac:(lia)).
  pose proof (Z.mod_pos_bound (le32toh host (data event) / 2 ^ 12) (2 ^ 20) ltac:(lia)).
  pose proof (I32T_range (le32toh host (timestamp event))) as Ht.
  unfold is_int32 in Ht. unfold INT32_MIN, INT32_MAX.
  rewrite !U8T_small by lia. rewrite U32T_small by (unfold is_uint32; lia).
  lia.
Qed.

(** X2.  A setter does not check its argument: of a core id or chip id
    that is a [uint8_t], and of a neuron id that is a [uint32_t], it stores
    the low 5, 6 and 20 bits, and the getter returns the argument modulo 32,
    64 and 2^20. *)
Theorem setter_truncates
    (host : endianness) (event : caer_spike_event) (coreId chipId neuronId : Z) :
  0 <= coreId < 2 ^ 8 -> 0 <= chipId < 2 ^ 8 -> 0 <= neuronId < 2 ^ 32 ->
  caerSpikeEventGetSourceCoreID host
    (caerSpikeEventSetSourceCoreID host event coreId) = coreId mod 32 /\
  caerSpikeEventGetChipID host (caerSpikeEventSetChipID host event chipId) = chipId mod 64 /\
  caerSpikeEventGetNeuronID host
    (caerSpikeEventSetNeuronID host event neuronId) = neuronId mod 2 ^ 20.
Proof.
  intros Hcore Hchip Hneuron.
  unfold caerSpikeEventGetSourceCoreID, caerSpikeEventGetChipID,
    caerSpikeEventGetNeuronID, caerSpikeEventSetSourceCoreID, caerSpikeEventSetChipID,
    caerSpikeEventSetNeuronID; cbn [data].
  subfield_masks. rewrite !get_written_field_mod by lia.
  pose proof (Z.mod_pos_bound coreId (2 ^ 5) ltac:(lia)).
  pose proof (Z.mod_pos_bound chipId (2 ^ 6) ltac:(lia)).
  pose proof (Z.mod_pos_bound neuronId (2 ^ 20) ltac:(lia)).
  rewrite !U8T_small by lia. rewrite U32T_small by (unfold is_uint32; lia).
  repeat split.
Qed.

Lemma setter_truncates_witness :
  caerSpikeEventGetSourceCoreID BigEndian
    (caerSpikeEventSetSourceCoreID BigEndian zero_event 255) = 255 mod 32 /\
  caerSpikeEventGetChipID BigEndian (caerSpikeEventSetChipID BigEndian zero_event 64) = 64 mod 64 /\
  caerSpikeEventGetNeuronID BigEndian
    (caerSpikeEventSetNeuronID BigEndian zero_event 0xFFFFFFFF) = 0xFFFFFFFF mod 2 ^ 20.
Proof.
  exact (setter_truncates BigEndian zero_event 255 64 0xFFFFFFFF
           ltac:(lia) ltac:(lia) ltac:(lia)).
Defined.

Lemma field_word_sum (host : endianness) (event : caer_spike_event) :
  field_word host event =
    validity_bit host event
    + 2 * caerSpikeEventGetSourceCoreID host event
    + 64 * caerSpikeEventGetChipID host event
    + 4096 * caerSpikeEventGetNeuronID host event.
Proof.
  pose proof (getters_bounds_aux host event) as Hb.
  unfold validity_bit. rewrite is_valid_bit0.
  unfold field_word, caerSpikeEventGetSourceCoreID, caerSpikeEventGetChipID,
    caerSpikeEventGetNeuronID in *.
  subfield_masks. rewrite !read_field_value in * by lia.
  pose proof (le32toh_range host (data event)) as Hw. unfold is_uint32 in Hw.
  set (w := le32toh host (data event)) in *.
  rewrite !U8T_small by lia. rewrite U32T_small by (unfold is_uint32; lia).
  assert (Hbit : (if Z.testbit w 0 then 1 else 0) = w mod 2).
  { rewrite <- Z.bit0_mod. now destruct (Z.testbit w 0). }
  rewrite Hbit.
  change (2 ^ 1) with 2. change (2 ^ 5) with 32. change (2 ^ 6) with 64.
  change (2 ^ 12) with 4096. change (2 ^ 20) with 1048576.
  change (2 ^ 32) with 4294967296 in Hw.
  Z.div_mod_to_equations. lia.
Qed.

(** X3.  The four fields make up the whole field word: for every record,
    the little-endian word is the validity bit + 2 * source core id + 64 *
    chip id + 4096 * neuron id.  So two records (a [uint32_t] word and a
    timestamp each) with the same validity, the same three ids and the same
    stored timestamp are equal. *)
Theorem field_word_layout (host : endianness) (event : caer_spike_event) :
  field_word host event =
    validity_bit host event
    + 2 * caerSpikeEventGetSourceCoreID host event
    + 64 * caerSpikeEventGetChipID host event
    + 4096 * caerSpikeEventGetNeuronID host event /\
  (forall other : caer_spike_event,
     is_uint32 (data event) -> is_uint32 (data other) ->
     caerSpikeEventIsValid host other = caerSpikeEventIsValid host event ->
     caerSpikeEventGetSourceCoreID host other = caerSpikeEventGetSourceCoreID host event ->
     caerSpikeEventGetChipID host other = caerSpikeEventGetChipID host event ->
     caerSpikeEventGetNeuronID host other = caerSpikeEventGetNeuronID host event ->
     timestamp other = timestamp event ->
     other = event).
Proof.
  split; [apply field_word_sum|].
  intros other He Ho Hv Hcore Hchip Hneuron Hts.
  apply event_eq; [|assumption].
  apply (le32toh_inj host); try assumption.
  pose proof (field_word_sum host event) as H1.
  pose proof (field_word_sum host other) as H2.
  unfold field_word, validity_bit in *. rewrite H1, H2, Hv, Hcore, Hchip, Hneuron.
  reflexivity.
Qed.

Lemma field_word_layout_witness :
  field_word BigEndian {| data := 0x87500000; timestamp := 3 |} = 1 + 2 * 3 + 64 * 2 + 4096 * 5 /\
  caerSpikeEventSetNeuronID BigEndian
    (caerSpikeEventSetChipID BigEndian
       (caerSpikeEventSetSourceCoreID BigEndian
          {| data := 0x01000000; timestamp := 3 |} 3) 2) 5 =
    {| data := 0x87500000; timestamp := 3 |}.
Proof.
  split.
  - exact (proj1 (field_word_layout BigEndian {| data := 0x87500000; timestamp := 3 |})).
  - refine (proj2 (field_word_layout BigEndian {| data := 0x87500000; timestamp := 3 |})
              _ _ _ eq_refl eq_refl eq_refl eq_refl eq_refl);
      unfold is_uint32; simpl; lia.
Defined.

Lemma land_uint32_range (x u : Z) : is_uint32 u -> is_uint32 (Z.land x u).
Proof.
  intros Hu. rewrite <- (U32T_small u Hu).
  replace (Z.land x (U32T u)) with (U32T (Z.land x u)); [apply U32T_range|].
  apply Z.bits_inj'. intros i Hi.
  rewrite U32T_testbit, !Z.land_spec, U32T_testbit.
  destruct (i <? 32); simpl; [reflexivity | now rewrite andb_false_r].
Qed.

Lemma written_uint32 (host : endianness) (VAR s m v : Z) :
  is_uint32 (SET_NUMBITS32 host (CLEAR_NUMBITS32 host VAR s m) s m v).
Proof.
  apply SET_NUMBITS32_range. unfold CLEAR_NUMBITS32.
  apply land_uint32_range, htole32_range.
Qed.

(** X4.  The three setters commute: for every record and all values,
    setting two different sub-fields in either order gives the same
    record. *)
Theorem setters_commute
    (host : endianness) (event : caer_spike_event) (coreId chipId neuronId : Z) :
  caerSpikeEventSetChipID host (caerSpikeEventSetSourceCoreID host event coreId) chipId =
    caerSpikeEventSetSourceCoreID host (caerSpikeEventSetChipID host event chipId) coreId /\
  caerSpikeEventSetNeuronID host (caerSpikeEventSetSourceCoreID host event coreId) neuronId =
    caerSpikeEventSetSourceCoreID host (caerSpikeEventSetNeuronID host event neuronId) coreId /\
  caerSpikeEventSetNeuronID host (caerSpikeEventSetChipID host event chipId) neuronId =
    caerSpikeEventSetChipID host (caerSpikeEventSetNeuronID host event neuronId) chipId.
Proof.
  unfold caerSpikeEventSetSourceCoreID, caerSpikeEventSetChipID, caerSpikeEventSetNeuronID.
  cbn [data timestamp]. subfield_masks.
  repeat split; (apply event_eq; cbn [data timestamp]; [|reflexivity]);
    (apply (le32toh_inj host); [apply written_uint32 | apply written_uint32 |]);
    apply write_write_commute; lia.
Qed.

(** X5.  The last write wins, and writing back what was read changes
    nothing: for every record, setting a sub-field twice gives the record of
    the second call alone; and setting a sub-field of a record (with a
    [uint32_t] field word) to the value its getter returns gives the record
    back. *)
Theorem setter_overwrites
    (host : endianness) (event : caer_spike_event) (first second : Z) :
  (caerSpikeEventSetSourceCoreID host (caerSpikeEventSetSourceCoreID host event first) second =
     caerSpikeEventSetSourceCoreID host event second /\
   caerSpikeEventSetChipID host (caerSpikeEventSetChipID host event first) second =
     caerSpikeEventSetChipID host event second /\
   caerSpikeEventSetNeuronID host (caerSpikeEventSetNeuronID host event first) second =
     caerSpikeEventSetNeuronID host event second) /\
  (is_uint32 (data event) ->
   caerSpikeEventSetSourceCoreID host event (caerSpikeEventGetSourceCoreID host event) = event /\
   caerSpikeEventSetChipID host event (caerSpikeEventGetChipID host event) = event /\
   caerSpikeEventSetNeuronID host event (caerSpikeEventGetNeuronID host event) = event).
Proof.
  pose proof (getters_bounds_aux host event) as Hb.
  unfold caerSpikeEventSetSourceCoreID, caerSpikeEventSetChipID, caerSpikeEventSetNeuronID,
    caerSpikeEventGetSourceCoreID, caerSpikeEventGetChipID, caerSpikeEventGetNeuronID.
  cbn [data timestamp]. subfield_masks. split.
  - repeat split; (apply event_eq; cbn [data timestamp]; [|reflexivity]);
      (apply (le32toh_inj host); [apply written_uint32 | apply written_uint32 |]);
      apply write_write_same; lia.
  - intros Hdata. rewrite !read_field_value by lia.
    rewrite !U8T_small by lia. rewrite U32T_small by (unfold is_uint32; lia).
    repeat split; (apply event_eq; cbn [data timestamp]; [|reflexivity]);
      (apply (le32toh_inj host); [apply written_uint32 | assumption |]);
      apply Z.bits_inj'; intros i Hi;
      rewrite write_field_testbit by lia;
      (destruct ((_ <=? i) && (i <? _)) eqn:Hin; [|reflexivity]);
      apply andb_true_iff in Hin as [H1 H2];
      apply Z.leb_le in H1; apply Z.ltb_lt in H2;
      rewrite Z.testbit_mod_pow2, Z.div_pow2_bits by lia;
      split_ltb; try lia; cbn [andb]; f_equal; lia.
Qed.

Lemma setter_overwrites_witness :
  caerSpikeEventSetChipID BigEndian {| data := 0x87500000; timestamp := 3 |}
    (caerSpikeEventGetChipID BigEndian {| data := 0x87500000; timestamp := 3 |}) =
    {| data := 0x87500000; timestamp := 3 |}.
Proof.
  exact (proj1 (proj2 (proj2 (setter_overwrites BigEndian
                                {| data := 0x87500000; timestamp := 3 |} 0 0)
                         ltac:(unfold is_uint32; simpl; lia)))).
Defined.

(** * Further properties of the timestamps *)

Lemma get_timestamp_after_set (host : endianness) (event : caer_spike_event) (t : Z) :
  is_int32 t ->
  caerSpikeEventGetTimestamp host (fst (caerSpikeEventSetTimestamp host event t)) =
    if t <? 0 then caerSpikeEventGetTimestamp host event else t.
Proof.
  intros Ht. unfold caerSpikeEventSetTimestamp.
  destruct (Z.ltb_spec t 0); cbn [fst]; [reflexivity|].
  unfold caerSpikeEventGetTimestamp; cbn [timestamp].
  rewrite le32toh_I32T, le32toh_htole32.
  rewrite U32T_small by (unfold is_int32, is_uint32 in *; lia).
  now apply I32T_small.
Qed.

(** X6.  [caerSpikeEventSetTimestamp] keeps a record sound whatever its
    argument: for every [int32_t] argument, the field word of the record is
    as it was, the stored timestamp is an [int32_t], at most one message is
    logged, and a record whose timestamp was not negative still has a
    timestamp that is not negative. *)
Theorem set_timestamp_keeps_record_sound
    (host : endianness) (event : caer_spike_event) (t : Z) :
  is_int32 t ->
  let result := caerSpikeEventSetTimestamp host event t in
  data (fst result) = data event /\
  (is_int32 (timestamp event) -> is_int32 (timestamp (fst result))) /\
  (length (snd result) <= 1)%nat /\
  (0 <= caerSpikeEventGetTimestamp host event ->
   0 <= caerSpikeEventGetTimestamp host (fst result)).
Proof.
  intros Ht result. subst result.
  split; [|split; [|split]].
  - unfold caerSpikeEventSetTimestamp. now destruct (t <? 0).
  - unfold caerSpikeEventSetTimestamp. destruct (t <? 0); cbn [fst timestamp]; [auto|].
    intros _. apply I32T_range.
  - unfold caerSpikeEventSetTimestamp. destruct (t <? 0); cbn [snd length]; lia.
  - intros Hold. rewrite get_timestamp_after_set by assumption.
    destruct (Z.ltb_spec t 0); lia.
Qed.

Lemma set_timestamp_keeps_record_sound_witness :
  0 <= caerSpikeEventGetTimestamp BigEndian
         (fst (caerSpikeEventSetTimestamp BigEndian {| data := 7; timestamp := 0x05000000 |}
                 (-3))).
Proof.
  exact (proj2 (proj2 (proj2 (set_timestamp_keeps_record_sound BigEndian
                                {| data := 7; timestamp := 0x05000000 |} (-3)
                                ltac:(unfold is_int32; lia))))
           ltac:(vm_compute; discriminate)).
Defined.

Lemma timestamp64_value
    (host : endianness) (event : caer_spike_event) (packet : caer_spike_event_packet) :
  is_int32 (eventTSOverflow (packetHeader packet)) ->
  0 <= caerSpikeEventGetTimestamp host event ->
  caerSpikeEventGetTimestamp64 host event packet =
    eventTSOverflow (packetHeader packet) * 2 ^ 31 + caerSpikeEventGetTimestamp host event.
Proof.
  intros Hovf Hts.
  pose proof (I32T_range (le32toh host (timestamp event))) as Hr.
  unfold caerSpikeEventGetTimestamp64, caerEventPacketHeaderGetEventTSOverflow.
  unfold caerSpikeEventGetTimestamp in *. unfold is_int32 in *.
  rewrite timestamp64_words, shifted_lor_sum by lia.
  apply I64T_U64T. unfold is_int64. lia.
Qed.

(** X7.  The 64-bit timestamp loses nothing and keeps the order: for
    records whose 32-bit timestamp is not negative and [int32_t] overflow
    counters, the overflow counter is the 64-bit timestamp divided by 2^31
    and the 32-bit timestamp is the remainder; and one 64-bit timestamp is
    below another exactly when its overflow counter is lower, or the
    overflow counters are equal and its 32-bit timestamp is lower. *)
Theorem timestamp64_lossless_monotone
    (host : endianness) (e1 e2 : caer_spike_event) (p1 p2 : caer_spike_event_packet) :
  is_int32 (eventTSOverflow (packetHeader p1)) ->
  is_int32 (eventTSOverflow (packetHeader p2)) ->
  0 <= caerSpikeEventGetTimestamp host e1 ->
  0 <= caerSpikeEventGetTimestamp host e2 ->
  caerSpikeEventGetTimestamp64 host e1 p1 / 2 ^ 31 = eventTSOverflow (packetHeader p1) /\
  caerSpikeEventGetTimestamp64 host e1 p1 mod 2 ^ 31 = caerSpikeEventGetTimestamp host e1 /\
  (caerSpikeEventGetTimestamp64 host e1 p1 < caerSpikeEventGetTimestamp64 host e2 p2 <->
   eventTSOverflow (packetHeader p1) < eventTSOverflow (packetHeader p2) \/
   (eventTSOverflow (packetHeader p1) = eventTSOverflow (packetHeader p2) /\
    caerSpikeEventGetTimestamp host e1 < caerSpikeEventGetTimestamp host e2)).
Proof.
  intros Ho1 Ho2 Ht1 Ht2.
  rewrite !timestamp64_value by assumption.
  pose proof (I32T_range (le32toh host (timestamp e1))) as Hr1.
  pose proof (I32T_range (le32toh host (timestamp e2))) as Hr2.
  unfold caerSpikeEventGetTimestamp, is_int32 in *.
  set (t1 := I32T (le32toh host (timestamp e1))) in *.
  set (t2 := I32T (le32toh host (timestamp e2))) in *.
  set (o1 := eventTSOverflow (packetHeader p1)) in *.
  set (o2 := eventTSOverflow (packetHeader p2)) in *.
  change (2 ^ 31) with 2147483648 in *.
  split; [|split].
  - symmetry. apply (Z.div_unique _ _ o1 t1); lia.
  - symmetry. apply (Z.mod_unique _ _ o1 t1); lia.
  - lia.
Qed.

Lemma timestamp64_lossless_monotone_witness :
  caerSpikeEventGetTimestamp64 LittleEndian {| data := 1; timestamp := 0x7FFFFFFF |}
    (zeroed_packet 12 0 4 1) <
  caerSpikeEventGetTimestamp64 LittleEndian {| data := 1; timestamp := 0 |}
    (zeroed_packet 12 0 5 1).
Proof.
  refine (proj2 (proj2 (proj2 (timestamp64_lossless_monotone LittleEndian
            {| data := 1; timestamp := 0x7FFFFFFF |} {| data := 1; timestamp := 0 |}
            (zeroed_packet 12 0 4 1) (zeroed_packet 12 0 5 1) _ _ _ _))) _).
  - unfold is_int32; simpl; lia.
  - unfold is_int32; simpl; lia.
  - vm_compute; discriminate.
  - vm_compute; discriminate.
  - left. simpl. lia.
Defined.

Lemma negative_high_bits (x i : Z) :
  - 2 ^ 31 <= x < 0 -> 31 <= i -> Z.testbit x i = true.
Proof.
  intros Hx Hi. apply Z.bits_above_log2_neg; [lia|].
  destruct (Z.eq_dec (Z.pred (- x)) 0) as [->|Hne]; [simpl; lia|].
  apply Z.lt_le_trans with 31; [|assumption].
  apply Z.log2_lt_pow2; lia.
Qed.

(** X8.  The overflow counter is lost on a negative 32-bit timestamp: for
    a record whose [caerSpikeEventGetTimestamp] is negative (bit 31 of the
    stored pattern set) and any packet, [caerSpikeEventGetTimestamp64]
    returns that negative 32-bit timestamp itself, because its conversion to
    64 bits sets all of the bits that the overflow counter is shifted
    into. *)
Theorem timestamp64_of_negative
    (host : endianness) (event : caer_spike_event) (packet : caer_spike_event_packet) :
  caerSpikeEventGetTimestamp host event < 0 ->
  caerSpikeEventGetTimestamp64 host event packet = caerSpikeEventGetTimestamp host event.
Proof.
  intros Hneg.
  pose proof (I32T_range (le32toh host (timestamp event))) as Hr.
  unfold caerSpikeEventGetTimestamp64. unfold caerSpikeEventGetTimestamp in *.
  unfold is_int32 in Hr.
  set (ts := I32T (le32toh host (timestamp event))) in *.
  replace (Z.lor (shl64 (U64T (caerEventPacketHeaderGetEventTSOverflow (packetHeader packet)))
                    TS_OVERFLOW_SHIFT) (U64T ts)) with (U64T ts).
  - apply I64T_U64T. unfold is_int64. lia.
  - apply Z.bits_inj'. intros i Hi. unfold shl64, TS_OVERFLOW_SHIFT.
    rewrite Z.lor_spec, !U64T_testbit, Z.shiftl_spec by lia.
    destruct (Z.ltb_spec i 64); cbn [andb orb]; [|reflexivity].
    destruct (Z.lt_ge_cases i 31).
    + rewrite U64T_testbit, (Z.testbit_neg_r _ (i - 31)) by lia.
      now rewrite andb_false_r.
    + rewrite (negative_high_bits ts i) by lia. now rewrite orb_true_r.
Qed.

Lemma timestamp64_of_negative_witness :
  caerSpikeEventGetTimestamp64 LittleEndian {| data := 1; timestamp := -5 |}
    (zeroed_packet 12 0 9 1) = -5.
Proof.
  exact (timestamp64_of_negative LittleEndian {| data := 1; timestamp := -5 |}
           (zeroed_packet 12 0 9 1) eq_refl).
Defined.

(** * Further properties of the bookkeeping *)

Lemma unmarked_marked (host : endianness) (event : caer_spike_event) :
  is_uint32 (data event) -> caerSpikeEventIsValid host event = false ->
  unmarked host (marked host event) = event.
Proof.
  intros Hdata Hinv. rewrite is_valid_bit0 in Hinv.
  apply event_eq; cbn [unmarked marked data timestamp]; [|reflexivity].
  apply (le32toh_inj host); [|assumption|].
  - unfold CLEAR_NUMBITS32. apply land_uint32_range, htole32_range.
  - apply Z.bits_inj'. intros i Hi.
    rewrite invalidate_word_testbit, validate_word_testbit by lia.
    destruct (Z.eqb_spec i 0) as [->|]; [now rewrite Hinv | reflexivity].
Qed.

Lemma marked_unmarked (host : endianness) (event : caer_spike_event) :
  is_uint32 (data event) -> caerSpikeEventIsValid host event = true ->
  marked host (unmarked host event) = event.
Proof.
  intros Hdata Hval. rewrite is_valid_bit0 in Hval.
  apply event_eq; cbn [unmarked marked data timestamp]; [|reflexivity].
  apply (le32toh_inj host); [|assumption|].
  - apply SET_NUMBITS32_range. unfold CLEAR_NUMBITS32.
    apply land_uint32_range, htole32_range.
  - apply Z.bits_inj'. intros i Hi.
    rewrite validate_word_testbit, invalidate_word_testbit by lia.
    destruct (Z.eqb_spec i 0) as [->|]; [now rewrite Hval | reflexivity].
Qed.

(** X9.  Validate does not undo Invalidate, and Invalidate does not undo
    Validate: on a record with a [uint32_t] field word and a header whose
    counters stay within [int32_t], invalidating a valid record and
    validating it again, or validating an invalid record and invalidating it
    again, logs nothing and gives back the record and the number of valid
    events, but the number of events is one more than it was. *)
Theorem validate_invalidate_miscount
    (host : endianness) (event : caer_spike_event) (header : caer_event_packet_header) :
  is_uint32 (data event) ->
  INT32_MIN <= eventNumber header < INT32_MAX ->
  INT32_MIN < eventValid header < INT32_MAX ->
  let one_more := caerEventPacketHeaderSetEventNumber header (eventNumber header + 1) in
  (caerSpikeEventIsValid host event = true ->
   let '((e1, h1), m1) := caerSpikeEventInvalidate host event header in
   caerSpikeEventValidate host e1 h1 = ((event, one_more), []) /\ m1 = []) /\
  (caerSpikeEventIsValid host event = false ->
   let '((e1, h1), m1) := caerSpikeEventValidate host event header in
   caerSpikeEventInvalidate host e1 h1 = ((event, one_more), []) /\ m1 = []).
Proof.
  intros Hdata Hn Hv one_more. unfold INT32_MIN, INT32_MAX in *.
  assert (HI : forall x, - 0x80000000 <= x <= 0x7FFFFFFF -> I32T x = x)
    by (intros x Hx; apply I32T_small; unfold is_int32; lia).
  split; intros Hvalid.
  - rewrite invalidate_cases, Hvalid, validate_cases, unmarked_is_invalid.
    rewrite marked_unmarked by assumption.
    split; [|reflexivity]. f_equal. f_equal.
    unfold counted, discounted, one_more, caerEventPacketHeaderSetEventNumber.
    cbn [eventNumber eventValid eventType eventSource eventTSOverflow eventCapacity].
    rewrite (HI (eventValid header - 1)), !HI by lia.
    f_equal. lia.
  - rewrite validate_cases, Hvalid, invalidate_cases, marked_is_valid.
    rewrite unmarked_marked by assumption.
    split; [|reflexivity]. f_equal. f_equal.
    unfold counted, discounted, one_more, caerEventPacketHeaderSetEventNumber.
    cbn [eventNumber eventValid eventType eventSource eventTSOverflow eventCapacity].
    rewrite (HI (eventValid header + 1)), !HI by lia.
    f_equal. lia.
Qed.

Lemma validate_invalidate_miscount_witness :
  let header := {| eventType := 12; eventSource := 1; eventTSOverflow := 0;
                   eventCapacity := 1; eventNumber := 1; eventValid := 1 |} in
  let event := {| data := 0x87500000; timestamp := 3 |} in
  let '((e1, h1), m1) := caerSpikeEventInvalidate BigEndian event header in
  caerSpikeEventValidate BigEndian e1 h1 =
    ((event, caerEventPacketHeaderSetEventNumber header 2), []) /\ m1 = [].
Proof.
  intros header event.
  refine (proj1 (validate_invalidate_miscount BigEndian event header _ _ _) eq_refl).
  - unfold is_uint32; simpl; lia.
  - unfold INT32_MIN, INT32_MAX; simpl; lia.
  - unfold INT32_MIN, INT32_MAX; simpl; lia.
Defined.

(** X10.  What a call leaves behind: after [caerSpikeEventValidate] the
    record is valid and after [caerSpikeEventInvalidate] it is invalid,
    whatever it was before; a call logs either nothing or one critical
    message, and it logs nothing exactly when it has changed the validity of
    the record. *)
Theorem mark_postcondition
    (host : endianness) (event : caer_spike_event) (header : caer_event_packet_header) :
  let validated := caerSpikeEventValidate host event header in
  let invalidated := caerSpikeEventInvalidate host event header in
  caerSpikeEventIsValid host (fst (fst validated)) = true /\
  caerSpikeEventIsValid host (fst (fst invalidated)) = false /\
  (snd validated = [] <-> caerSpikeEventIsValid host event = false) /\
  (snd invalidated = [] <-> caerSpikeEventIsValid host event = true) /\
  (length (snd validated) <= 1)%nat /\ (length (snd invalidated) <= 1)%nat /\
  Forall (fun m => is_critical m = true) (snd validated ++ snd invalidated).
Proof.
  cbv zeta. rewrite validate_cases, invalidate_cases.
  destruct (caerSpikeEventIsValid host event) eqn:Hv; cbn [fst snd length app].
  - rewrite Hv, unmarked_is_invalid.
    repeat split; try discriminate; try lia; auto; repeat constructor.
  - rewrite Hv, marked_is_valid.
    repeat split; try discriminate; try lia; auto; repeat constructor.
Qed.

Lemma same_but_validity_trans (host : endianness) (e1 e2 e3 : caer_spike_event) :
  same_but_validity host e1 e2 -> same_but_validity host e2 e3 ->
  same_but_validity host e1 e3.
Proof.
  intros (Hb1 & Hc1 & Hh1 & Hn1 & Ht1 & Hg1) (Hb2 & Hc2 & Hh2 & Hn2 & Ht2 & Hg2).
  repeat split; try congruence.
  intros b Hb. rewrite Hb2, Hb1 by assumption. reflexivity.
Qed.

(** What one operation leaves alone, in terms of the packet before. *)
Lemma run_op_frame (host : endianness) (op : bookkeeping_op)
    (p p' : caer_spike_event_packet) (msgs : list log_entry) :
  run_op host op p = Some (p', msgs) ->
  same_fixed_fields (packetHeader p) (packetHeader p') /\
  length (events p') = length (events p) /\
  (forall i e, events p !! i = Some e ->
     exists e', events p' !! i = Some e' /\ same_but_validity host e e') /\
  (length msgs <= 1)%nat /\
  Forall (fun m => is_critical m = true) msgs.
Proof.
  intros Hrun.
  assert (He : exists e, events p !! op_on op = Some e).
  { destruct op as [k|k]; cbn [run_op op_on] in *; unfold call_on_event in Hrun;
      destruct (events p !! k) as [e|]; try discriminate; eauto. }
  destruct He as [e He].
  assert (Hlt : (op_on op < length (events p))%nat) by (eapply lookup_lt_Some; eauto).
  assert (Hcases :
    (p' = p /\ (length msgs <= 1)%nat /\ Forall (fun m => is_critical m = true) msgs) \/
    (exists e' h', same_but_validity host e e' /\
       same_fixed_fields (packetHeader p) h' /\
       p' = {| packetHeader := h'; events := <[op_on op := e']> (events p) |} /\
       msgs = [])).
  { destruct op as [k|k]; cbn [op_on] in *.
    - rewrite (run_validate host p k e He) in Hrun.
      destruct (caerSpikeEventIsValid host e); injection Hrun as <- <-.
      + left. repeat split; [cbn; lia | repeat constructor].
      + right. exists (marked host e), (counted (packetHeader p)).
        split; [apply marked_same_but_validity | repeat split].
    - rewrite (run_invalidate host p k e He) in Hrun.
      destruct (caerSpikeEventIsValid host e); injection Hrun as <- <-.
      + right. exists (unmarked host e), (discounted (packetHeader p)).
        split; [apply unmarked_same_but_validity | repeat split].
      + left. repeat split; [cbn; lia | repeat constructor]. }
  destruct Hcases as [(-> & Hlen & Hcrit) | (e' & h' & Hsame & Hfix & -> & ->)].
  - repeat split; auto. intros i x Hx. exists x. split; [assumption|].
    apply same_but_validity_refl.
  - cbn [packetHeader events length]. split; [assumption|].
    split; [apply length_insert|]. split; [|split; [lia | constructor]].
    intros i x Hx. destruct (decide (i = op_on op)) as [->|Hne].
    + rewrite He in Hx. injection Hx as <-. exists e'.
      split; [now apply list_lookup_insert_eq | assumption].
    + exists x. split; [now rewrite list_lookup_insert_ne | apply same_but_validity_refl].
Qed.

(** X11.  What no sequence of Validate and Invalidate calls does.  A
    sequence returns exactly when each call is on a record of the packet.
    Then the type, source, overflow counter and capacity of the header and
    the number of records are as before; every record has the sub-fields,
    the timestamp and the field word, but for bit 0, that it had; and there
    is at most one message per call, each of them critical. *)
Theorem run_ops_frame
    (host : endianness) (ops : list bookkeeping_op) (packet : caer_spike_event_packet) :
  (is_Some (run_ops host ops packet) <->
   Forall (fun op => (op_on op < length (events packet))%nat) ops) /\
  (forall packet' msgs,
     run_ops host ops packet = Some (packet', msgs) ->
     same_fixed_fields (packetHeader packet) (packetHeader packet') /\
     length (events packet') = length (events packet) /\
     (forall i e, events packet !! i = Some e ->
        exists e', events packet' !! i = Some e' /\ same_but_validity host e e') /\
     (length msgs <= length ops)%nat /\
     Forall (fun m => is_critical m = true) msgs).
Proof.
  revert packet. induction ops as [|op ops IH]; intros packet.
  - cbn [run_ops]. split.
    + split; [constructor | intros _; eauto].
    + intros p' msgs H. injection H as <- <-.
      repeat split; auto. intros i e He. exists e. split; [assumption|].
      apply same_but_validity_refl.
  - cbn [run_ops]. destruct (run_op host op packet) as [[p1 m1]|] eqn:Hop.
    + destruct (run_op_frame host op packet p1 m1 Hop)
        as (Hfix1 & Hlen1 & Hrec1 & Hm1 & Hc1).
      destruct (IH p1) as [Hsome Hframe].
      assert (Hin : (op_on op < length (events packet))%nat).
      { destruct op as [k|k]; cbn [run_op op_on] in *; unfold call_on_event in Hop;
          destruct (events packet !! k) as [e|] eqn:He; try discriminate;
          eapply lookup_lt_Some; eauto. }
      split.
      * rewrite Forall_cons. rewrite <- Hlen1, <- Hsome.
        destruct (run_ops host ops p1) as [[p2 m2]|]; split.
        -- intros _. split; [rewrite Hlen1; exact Hin | eauto].
        -- intros _. eauto.
        -- intros [x Hx]. discriminate.
        -- intros [_ [x Hx]]. discriminate.
      * intros p' msgs H.
        destruct (run_ops host ops p1) as [[p2 m2]|] eqn:Hrest; [|discriminate].
        injection H as <- <-.
        destruct (Hframe p2 m2 eq_refl) as (Hfix2 & Hlen2 & Hrec2 & Hm2 & Hc2).
        split; [|split; [|split; [|split]]].
        -- destruct Hfix1 as (? & ? & ? & ?), Hfix2 as (? & ? & ? & ?).
           repeat split; congruence.
        -- congruence.
        -- intros i e He. destruct (Hrec1 i e He) as (e1 & He1 & Hs1).
           destruct (Hrec2 i e1 He1) as (e2 & He2 & Hs2).
           exists e2. split; [assumption|].
           eapply same_but_validity_trans; eauto.
        -- rewrite length_app. cbn [length]. lia.
        -- apply Forall_app. auto.
    + split.
      * split; [intros [x Hx]; discriminate|].
        rewrite Forall_cons. intros [Hin _]. exfalso.
        destruct (lookup_lt_is_Some_2 _ _ Hin) as [e He].
        destruct op as [k|k]; cbn [run_op op_on] in *; unfold call_on_event in Hop;
          rewrite He in Hop;
          [destruct (caerSpikeEventValidate host e (packetHeader packet)) as [[? ?] ?]
          |destruct (caerSpikeEventInvalidate host e (packetHeader packet)) as [[? ?] ?]];
          discriminate.
      * intros p' msgs H. discriminate.
Qed.

Lemma run_ops_frame_witness :
  same_fixed_fields (packetHeader (zeroed_packet 12 3 1 2))
    {| eventType := 12; eventSource := 3; eventTSOverflow := 1;
       eventCapacity := 2; eventNumber := 2; eventValid := 1 |}.
Proof.
  exact (proj1 (proj2 (run_ops_frame LittleEndian
                         [Validate 1; Validate 1; Invalidate 1; Validate 1; Invalidate 0]
                         (zeroed_packet 12 3 1 2)) _ _ eq_refl)).
Defined.

(** * Further properties of the traversals *)

Lemma valid_count (host : endianness) (packet : caer_spike_event_packet) (m : nat) :
  (m <= length (events packet))%nat ->
  Z.of_nat (length (valid_from host packet 0 (Z.of_nat m))) =
    valid_sum host m (events packet).
Proof.
  induction m as [|m IH]; intros Hm.
  - reflexivity.
  - destruct (lookup_lt_is_Some_2 (events packet) m) as [e He]; [lia|].
    rewrite (valid_sum_S host m _ e He), <- IH by lia.
    unfold valid_from. rewrite seqZ_S, filter_app, length_app, filter_cons, filter_nil.
    replace (Z.to_nat (0 + Z.of_nat m)) with m by lia.
    unfold validity_bit, is_valid_at. rewrite He.
    destruct (caerSpikeEventIsValid host e) eqn:Hv.
    + rewrite decide_True by reflexivity. cbn [length]. lia.
    + rewrite decide_False by discriminate. cbn [length]. lia.
Qed.

(** X12.  In a packet that keeps the bookkeeping invariant (a header and
    [eventCapacity] records), the traversal of the valid events runs its
    body eventValid times: the forward and the reverse traversal with the
    recording body return eventValid indices. *)
Theorem valid_traversal_count
    (host : endianness) (packet : caer_spike_event_packet) (fuel : nat) :
  packet_wf packet -> bookkeeping_invariant host packet ->
  (Z.to_nat (eventNumber (packetHeader packet)) < fuel)%nat ->
  exists forward backward : list Z,
    CAER_SPIKE_ITERATOR_VALID host visit fuel packet [] = Finished (packet, forward) /\
    CAER_SPIKE_REVERSE_ITERATOR_VALID host visit fuel packet [] = Finished (packet, backward) /\
    Z.of_nat (length forward) = eventValid (packetHeader packet) /\
    Z.of_nat (length backward) = eventValid (packetHeader packet).
Proof.
  intros Hwf (Hv0 & Hvn & Hnc & Hsum) Hfuel.
  assert (Hcount : 0 <= eventNumber (packetHeader packet)
                   <= eventCapacity (packetHeader packet)) by lia.
  exists (valid_indices host packet), (rev (valid_indices host packet)).
  rewrite (forward_traversal host visit packet) by (auto; reflexivity).
  rewrite (reverse_traversal host visit packet) by (auto; reflexivity).
  rewrite !visit_collects. cbn [app]. rewrite length_rev.
  assert (Hlen : Z.of_nat (length (valid_indices host packet)) =
                 eventValid (packetHeader packet)).
  { rewrite Hsum. destruct Hwf as [Hlen _].
    rewrite <- valid_count by lia. unfold valid_from, valid_indices.
    now rewrite Z2Nat.id by lia. }
  auto.
Qed.

Lemma valid_traversal_count_witness :
  exists forward backward : list Z,
    CAER_SPIKE_ITERATOR_VALID BigEndian visit 3
      {| packetHeader := {| eventType := 12; eventSource := 1; eventTSOverflow := 0;
                            eventCapacity := 2; eventNumber := 2; eventValid := 1 |};
         events := [ zero_event; {| data := 0x87500000; timestamp := 3 |} ] |} [] =
      Finished
        ({| packetHeader := {| eventType := 12; eventSource := 1; eventTSOverflow := 0;
                               eventCapacity := 2; eventNumber := 2; eventValid := 1 |};
            events := [ zero_event; {| data := 0x87500000; timestamp := 3 |} ] |}, forward) /\
    CAER_SPIKE_REVERSE_ITERATOR_VALID BigEndian visit 3
      {| packetHeader := {| eventType := 12; eventSource := 1; eventTSOverflow := 0;
                            eventCapacity := 2; eventNumber := 2; eventValid := 1 |};
         events := [ zero_event; {| data := 0x87500000; timestamp := 3 |} ] |} [] =
      Finished
        ({| packetHeader := {| eventType := 12; eventSource := 1; eventTSOverflow := 0;
                               eventCapacity := 2; eventNumber := 2; eventValid := 1 |};
            events := [ zero_event; {| data := 0x87500000; timestamp := 3 |} ] |}, backward) /\
    Z.of_nat (length forward) = 1 /\ Z.of_nat (length backward) = 1.
Proof.
  refine (valid_traversal_count BigEndian
            {| packetHeader := {| eventType := 12; eventSource := 1; eventTSOverflow := 0;
                                  eventCapacity := 2; eventNumber := 2; eventValid := 1 |};
               events := [ zero_event; {| data := 0x87500000; timestamp := 3 |} ] |} 3 _ _ _).
  - split; [reflexivity | unfold INT32_MAX; simpl; lia].
  - unfold bookkeeping_invariant; simpl. repeat split; try lia; reflexivity.
  - simpl. lia.
Defined.

Section TraversalAll.
Context {A : Type}.
Variable get : caer_spike_event_packet -> Z -> logged caerSpikeEvent.
Variable body :
  Z -> caerSpikeEvent -> caer_spike_event_packet * A -> caer_spike_event_packet * A.
Variable packet : caer_spike_event_packet.

Hypothesis body_reads : forall c element st, fst (body c element st) = fst st.
Hypothesis count_int32 : eventNumber (packetHeader packet) <= INT32_MAX.

Lemma messages_at_cons (i : Z) (l : list Z) :
  messages_at get packet (i :: l) = snd (get packet i) ++ messages_at get packet l.
Proof. reflexivity. Qed.

Lemma all_forward_loop (m : nat) :
  forall (fuel : nat) (c : Z) (a : A) (msgs : list log_entry),
    0 <= c -> c + Z.of_nat m = eventNumber (packetHeader packet) -> (m < fuel)%nat ->
    iterator_all_loop get body fuel c (packet, a) msgs =
      Finished ((packet, fold_left (at_element get body packet) (seqZ c (Z.of_nat m)) a),
                msgs ++ messages_at get packet (seqZ c (Z.of_nat m))).
Proof.
  unfold INT32_MAX in count_int32.
  induction m as [|m IH]; intros fuel c a msgs Hc Hn Hfuel;
    (destruct fuel as [|fuel]; [lia|]);
    cbn [iterator_all_loop fst]; unfold caerEventPacketHeaderGetEventNumber.
  - destruct (Z.ltb_spec c (eventNumber (packetHeader packet))); [lia|].
    rewrite seqZ_nil by lia. cbn. now rewrite app_nil_r.
  - destruct (Z.ltb_spec c (eventNumber (packetHeader packet))); [|lia].
    rewrite (seqZ_cons c) by lia.
    replace (Z.succ c) with (c + 1) by lia.
    replace (Z.pred (Z.of_nat (S m))) with (Z.of_nat m) by lia.
    rewrite messages_at_cons. cbn [fold_left]. unfold at_element at 2.
    destruct (get packet c) as [element logged_now]. cbn [fst snd].
    rewrite I32T_small by (unfold is_int32; lia).
    rewrite (surjective_pairing (body c element (packet, a))), body_reads. cbn [fst].
    rewrite IH by lia. now rewrite app_assoc.
Qed.

Lemma all_reverse_loop (m : nat) :
  forall (fuel : nat) (c : Z) (a : A) (msgs : list log_entry),
    c + 1 = Z.of_nat m -> c < eventNumber (packetHeader packet) -> (m < fuel)%nat ->
    reverse_iterator_all_loop get body fuel c (packet, a) msgs =
      Finished ((packet, fold_left (at_element get body packet) (rev (seqZ 0 (c + 1))) a),
                msgs ++ messages_at get packet (rev (seqZ 0 (c + 1)))).
Proof.
  unfold INT32_MAX in count_int32.
  induction m as [|m IH]; intros fuel c a msgs Hc Hn Hfuel;
    (destruct fuel as [|fuel]; [lia|]);
    cbn [reverse_iterator_all_loop fst].
  - destruct (Z.geb_spec c 0); [lia|].
    rewrite seqZ_nil by lia. cbn. now rewrite app_nil_r.
  - destruct (Z.geb_spec c 0); [|lia].
    replace (c + 1) with (Z.of_nat (S (Z.to_nat c))) by lia.
    rewrite seqZ_S, rev_app_distr. cbn [rev app].
    replace (0 + Z.of_nat (Z.to_nat c)) with c by lia.
    replace (Z.of_nat (Z.to_nat c)) with (c - 1 + 1) by lia.
    rewrite messages_at_cons. cbn [fold_left]. unfold at_element at 2.
    destruct (get packet c) as [element logged_now]. cbn [fst snd].
    rewrite I32T_small by (unfold is_int32; lia).
    rewrite (surjective_pairing (body c element (packet, a))), body_reads. cbn [fst].
    rewrite IH by lia. now rewrite app_assoc.
Qed.

End TraversalAll.

Lemma visit_element_collects
    (get : caer_spike_event_packet -> Z -> logged caerSpikeEvent)
    (packet : caer_spike_event_packet) (l : list Z) (acc : list (Z * caerSpikeEvent)) :
  fold_left (at_element get visit_element packet) l acc =
    acc ++ ((fun i => (i, fst (get packet i))) <$> l).
Proof.
  revert acc. induction l as [|i l IH]; intros acc; cbn [fold_left fmap list_fmap].
  - now rewrite app_nil_r.
  - rewrite IH. unfold at_element, visit_element. cbn [fst snd]. now rewrite <- app_assoc.
Qed.

Lemma get_event_in (packet : caer_spike_event_packet) (i : Z) :
  0 <= i < eventCapacity (packetHeader packet) ->
  caerSpikeEventPacketGetEvent packet i = (Some (Z.to_nat i), []).
Proof.
  intros Hi. unfold caerSpikeEventPacketGetEvent, caerEventPacketHeaderGetEventCapacity.
  destruct (Z.ltb_spec i 0); [lia|].
  destruct (Z.geb_spec i (eventCapacity (packetHeader packet))); [lia | reflexivity].
Qed.

Lemma get_event_out (packet : caer_spike_event_packet) (i : Z) :
  ~ 0 <= i < eventCapacity (packetHeader packet) ->
  caerSpikeEventPacketGetEvent packet i = (None, [out_of_bounds_message packet i]).
Proof.
  intros Hi. unfold caerSpikeEventPacketGetEvent, caerEventPacketHeaderGetEventCapacity.
  destruct (Z.ltb_spec i 0); [reflexivity|].
  destruct (Z.geb_spec i (eventCapacity (packetHeader packet))); [reflexivity | lia].
Qed.

Lemma messages_in_capacity (packet : caer_spike_event_packet) (l : list Z) :
  Forall (fun i => 0 <= i < eventCapacity (packetHeader packet)) l ->
  messages_at caerSpikeEventPacketGetEvent packet l = [] /\
  (fun i => (i, fst (caerSpikeEventPacketGetEvent packet i))) <$> l =
    (fun i => (i, Some (Z.to_nat i))) <$> l.
Proof.
  induction 1 as [|i l Hi Hl [IH1 IH2]]; [split; reflexivity|].
  unfold messages_at in *. cbn [fmap list_fmap concat].
  fold (fmap (M := list) (fun i => snd (caerSpikeEventPacketGetEvent packet i)) l).
  fold (fmap (M := list) (fun i => (i, fst (caerSpikeEventPacketGetEvent packet i))) l).
  fold (fmap (M := list) (fun i : Z => (i, Some (Z.to_nat i))) l).
  rewrite IH1, IH2, (get_event_in packet i Hi). split; reflexivity.
Qed.

Lemma messages_out_of_capacity (packet : caer_spike_event_packet) (l : list Z) :
  Forall (fun i => eventCapacity (packetHeader packet) <= i) l ->
  messages_at caerSpikeEventPacketGetEvent packet l = out_of_bounds_message packet <$> l /\
  (fun i => (i, fst (caerSpikeEventPacketGetEvent packet i))) <$> l =
    (fun i => (i, None)) <$> l.
Proof.
  induction 1 as [|i l Hi Hl [IH1 IH2]]; [split; reflexivity|].
  unfold messages_at in *. cbn [fmap list_fmap concat].
  fold (fmap (M := list) (fun i => snd (caerSpikeEventPacketGetEvent packet i)) l).
  fold (fmap (M := list) (fun i => (i, fst (caerSpikeEventPacketGetEvent packet i))) l).
  fold (fmap (M := list) (fun i : Z => (i, @None nat)) l).
  fold (fmap (M := list) (out_of_bounds_message packet) l).
  rewrite IH1, IH2, (get_event_out packet i) by lia. split; reflexivity.
Qed.

Lemma seqZ_within (m n lo hi : Z) :
  lo <= m -> m + n <= hi -> Forall (fun i => lo <= i < hi) (seqZ m n).
Proof.
  intros Hlo Hhi. rewrite Forall_forall. intros i Hi. apply elem_of_seqZ in Hi. lia.
Qed.

Lemma seqZ_from (m n : Z) : Forall (fun i => m <= i) (seqZ m n).
Proof. rewrite Forall_forall. intros i Hi. apply elem_of_seqZ in Hi. lia. Qed.

(** X13.  The traversals of all events.  For every packet whose eventCount
    is a non-negative [int32_t], every loop body that leaves the packet
    alone and every bound above eventCount on the number of rounds: the
    forward loop ends with the packet as it was and has run the body once on
    each index 0, 1, ..., eventCount - 1 in this order, with the element and
    the messages of [caerSpikeEventPacketGetEvent] for that index; the
    reverse loop does the same in the order eventCount - 1, ..., 0.  When
    eventCount is within the capacity, the element of index i is the pointer
    to record i and nothing is logged.  When eventCount is above the
    capacity, the loop still ends: the body is run with [NULL] on each index
    from the capacity on, and one critical message is logged for each. *)
Theorem all_traversal_order
    (A : Type)
    (body : Z -> caerSpikeEvent -> caer_spike_event_packet * A ->
            caer_spike_event_packet * A)
    (packet : caer_spike_event_packet) (fuel : nat) (a : A) :
  let n := eventNumber (packetHeader packet) in
  let capacity := eventCapacity (packetHeader packet) in
  (forall c element st, fst (body c element st) = fst st) ->
  0 <= n <= INT32_MAX ->
  (Z.to_nat n < fuel)%nat ->
  CAER_SPIKE_ITERATOR_ALL body fuel packet a =
    Finished ((packet,
               fold_left (at_element caerSpikeEventPacketGetEvent body packet) (seqZ 0 n) a),
              messages_at caerSpikeEventPacketGetEvent packet (seqZ 0 n)) /\
  CAER_SPIKE_REVERSE_ITERATOR_ALL body fuel packet a =
    Finished ((packet,
               fold_left (at_element caerSpikeEventPacketGetEvent body packet)
                 (rev (seqZ 0 n)) a),
              messages_at caerSpikeEventPacketGetEvent packet (rev (seqZ 0 n))) /\
  (n <= capacity ->
   CAER_SPIKE_ITERATOR_ALL visit_element fuel packet [] =
     Finished ((packet, (fun i => (i, Some (Z.to_nat i))) <$> seqZ 0 n), []) /\
   CAER_SPIKE_REVERSE_ITERATOR_ALL visit_element fuel packet [] =
     Finished ((packet, (fun i => (i, Some (Z.to_nat i))) <$> rev (seqZ 0 n)), [])) /\
  (0 <= capacity <= n ->
   CAER_SPIKE_ITERATOR_ALL visit_element fuel packet [] =
     Finished ((packet,
                ((fun i => (i, Some (Z.to_nat i))) <$> seqZ 0 capacity) ++
                ((fun i => (i, None)) <$> seqZ capacity (n - capacity))),
               out_of_bounds_message packet <$> seqZ capacity (n - capacity)) /\
   Forall (fun m => is_critical m = true)
     (out_of_bounds_message packet <$> seqZ capacity (n - capacity))).
Proof.
  intros n capacity Hreads Hn Hfuel.
  assert (Hmax : eventNumber (packetHeader packet) <= INT32_MAX) by (fold n; lia).
  assert (Hfwd : forall B (b : Z -> caerSpikeEvent -> caer_spike_event_packet * B ->
                                caer_spike_event_packet * B) (x : B),
             (forall c element st, fst (b c element st) = fst st) ->
             CAER_SPIKE_ITERATOR_ALL b fuel packet x =
               Finished ((packet,
                          fold_left (at_element caerSpikeEventPacketGetEvent b packet)
                            (seqZ 0 n) x),
                         messages_at caerSpikeEventPacketGetEvent packet (seqZ 0 n))).
  { intros B b x Hb. unfold CAER_SPIKE_ITERATOR_ALL.
    rewrite (all_forward_loop caerSpikeEventPacketGetEvent b packet Hb Hmax (Z.to_nat n))
      by (fold n; lia).
    now rewrite Z2Nat.id by lia. }
  assert (Hrev : forall B (b : Z -> caerSpikeEvent -> caer_spike_event_packet * B ->
                                caer_spike_event_packet * B) (x : B),
             (forall c element st, fst (b c element st) = fst st) ->
             CAER_SPIKE_REVERSE_ITERATOR_ALL b fuel packet x =
               Finished ((packet,
                          fold_left (at_element caerSpikeEventPacketGetEvent b packet)
                            (rev (seqZ 0 n)) x),
                         messages_at caerSpikeEventPacketGetEvent packet (rev (seqZ 0 n)))).
  { intros B b x Hb. unfold CAER_SPIKE_REVERSE_ITERATOR_ALL,
      caerEventPacketHeaderGetEventNumber. fold n. unfold INT32_MAX in Hn.
    rewrite I32T_small by (unfold is_int32; lia).
    rewrite (all_reverse_loop caerSpikeEventPacketGetEvent b packet Hb Hmax (Z.to_nat n))
      by (fold n; lia).
    now replace (n - 1 + 1) with n by lia. }
  split; [now apply Hfwd|]. split; [now apply Hrev|]. split.
  - intros Hcap.
    rewrite Hfwd, Hrev by reflexivity. rewrite !visit_element_collects. cbn [app].
    destruct (messages_in_capacity packet (seqZ 0 n)) as [-> ->];
      [apply seqZ_within; lia|].
    destruct (messages_in_capacity packet (rev (seqZ 0 n))) as [-> ->];
      [apply Forall_rev, seqZ_within; lia|].
    split; reflexivity.
  - intros Hcap. split.
    + rewrite Hfwd by reflexivity. rewrite visit_element_collects. cbn [app].
      replace n with (capacity + (n - capacity)) at 1 2 by lia.
      rewrite seqZ_app by lia. cbn [Z.add].
      unfold messages_at. rewrite !fmap_app, concat_app.
      fold (messages_at caerSpikeEventPacketGetEvent packet (seqZ 0 capacity)).
      fold (messages_at caerSpikeEventPacketGetEvent packet
              (seqZ (0 + capacity) (n - capacity))).
      replace (0 + capacity) with capacity by lia.
      destruct (messages_in_capacity packet (seqZ 0 capacity)) as [-> ->];
        [apply seqZ_within; lia|].
      destruct (messages_out_of_capacity packet (seqZ capacity (n - capacity))) as [-> ->];
        [apply seqZ_from|].
      reflexivity.
    + apply Forall_fmap, Forall_forall. intros i _. reflexivity.
Qed.

Lemma all_traversal_order_witness :
  CAER_SPIKE_ITERATOR_ALL visit_element 4
    {| packetHeader := {| eventType := 12; eventSource := 1; eventTSOverflow := 0;
                          eventCapacity := 1; eventNumber := 3; eventValid := 1 |};
       events := [ {| data := 1; timestamp := 3 |} ] |} [] =
    Finished
      (({| packetHeader := {| eventType := 12; eventSource := 1; eventTSOverflow := 0;
                              eventCapacity := 1; eventNumber := 3; eventValid := 1 |};
           events := [ {| data := 1; timestamp := 3 |} ] |},
        [(0, Some 0%nat); (1, None); (2, None)]),
       [out_of_bounds_message
          {| packetHeader := {| eventType := 12; eventSource := 1; eventTSOverflow := 0;
                                eventCapacity := 1; eventNumber := 3; eventValid := 1 |};
             events := [ {| data := 1; timestamp := 3 |} ] |} 1;
        out_of_bounds_message
          {| packetHeader := {| eventType := 12; eventSource := 1; eventTSOverflow := 0;
                                eventCapacity := 1; eventNumber := 3; eventValid := 1 |};
             events := [ {| data := 1; timestamp := 3 |} ] |} 2]).
Proof.
  refine (proj1 (proj2 (proj2 (proj2
           (all_traversal_order (list (Z * caerSpikeEvent)) visit_element
              {| packetHeader := {| eventType := 12; eventSource := 1; eventTSOverflow := 0;
                                    eventCapacity := 1; eventNumber := 3; eventValid := 1 |};
                 events := [ {| data := 1; timestamp := 3 |} ] |} 4 [] _ _ _))) _)).
  - reflexivity.
  - unfold INT32_MAX; simpl; lia.
  - simpl; lia.
  - simpl; lia.
Defined.

Lemma get_event_const_agrees (packet : caer_spike_event_packet) (i : Z) :
  fst (caerSpikeEventPacketGetEventConst packet i) =
    fst (caerSpikeEventPacketGetEvent packet i) /\
  length (snd (caerSpikeEventPacketGetEventConst packet i)) =
    length (snd (caerSpikeEventPacketGetEvent packet i)) /\
  Forall (fun m => is_critical m = true) (snd (caerSpikeEventPacketGetEventConst packet i)).
Proof.
  unfold caerSpikeEventPacketGetEventConst, caerSpikeEventPacketGetEvent.
  destruct ((i <? 0) || (i >=? caerEventPacketHeaderGetEventCapacity (packetHeader packet)));
    cbn [fst snd length]; repeat split; repeat constructor.
Qed.

Lemma fold_left_pointwise {A B : Type} (f g : A -> B -> A) (l : list B) :
  (forall a b, f a b = g a b) -> forall a, fold_left f l a = fold_left g l a.
Proof.
  intros Hfg. induction l as [|b l IH]; intros a; cbn [fold_left]; [reflexivity|].
  now rewrite Hfg, IH.
Qed.

Lemma messages_at_length
    (get get' : caer_spike_event_packet -> Z -> logged caerSpikeEvent)
    (packet : caer_spike_event_packet) (l : list Z) :
  (forall i, length (snd (get packet i)) = length (snd (get' packet i))) ->
  length (messages_at get packet l) = length (messages_at get' packet l).
Proof.
  intros Hlen. induction l as [|i l IH]; [reflexivity|].
  rewrite !messages_at_cons, !length_app. now rewrite Hlen, IH.
Qed.

(** X14.  The const accessor and the const traversals behave as the others.
    [caerSpikeEventPacketGetEventConst] returns the same pointer as
    [caerSpikeEventPacketGetEvent] for every index and logs a critical
    message exactly when that one does; so, for a loop body that leaves the
    packet alone, a packet whose eventCount is a non-negative [int32_t] and a
    bound above eventCount on the rounds, the const traversals of all events
    end in the same state as the others, with as many messages. *)
Theorem const_traversal_agrees
    (A : Type)
    (body : Z -> caerSpikeEvent -> caer_spike_event_packet * A ->
            caer_spike_event_packet * A)
    (packet : caer_spike_event_packet) (fuel : nat) (a : A) :
  (forall c element st, fst (body c element st) = fst st) ->
  0 <= eventNumber (packetHeader packet) <= INT32_MAX ->
  (Z.to_nat (eventNumber (packetHeader packet)) < fuel)%nat ->
  (forall i : Z,
     fst (caerSpikeEventPacketGetEventConst packet i) =
       fst (caerSpikeEventPacketGetEvent packet i) /\
     length (snd (caerSpikeEventPacketGetEventConst packet i)) =
       length (snd (caerSpikeEventPacketGetEvent packet i)) /\
     Forall (fun m => is_critical m = true)
       (snd (caerSpikeEventPacketGetEventConst packet i))) /\
  (exists final msgs msgs',
     CAER_SPIKE_ITERATOR_ALL body fuel packet a = Finished (final, msgs) /\
     CAER_SPIKE_CONST_ITERATOR_ALL body fuel packet a = Finished (final, msgs') /\
     fst final = packet /\ length msgs' = length msgs) /\
  (exists final msgs msgs',
     CAER_SPIKE_REVERSE_ITERATOR_ALL body fuel packet a = Finished (final, msgs) /\
     CAER_SPIKE_CONST_REVERSE_ITERATOR_ALL body fuel packet a = Finished (final, msgs') /\
     fst final = packet /\ length msgs' = length msgs).
Proof.
  intros Hreads Hn Hfuel.
  assert (Hmax : eventNumber (packetHeader packet) <= INT32_MAX) by lia.
  assert (Hsame : forall x i,
            at_element caerSpikeEventPacketGetEventConst body packet x i =
              at_element caerSpikeEventPacketGetEvent body packet x i).
  { intros x i. unfold at_element.
    now rewrite (proj1 (get_event_const_agrees packet i)). }
  assert (Hlen : forall i,
            length (snd (caerSpikeEventPacketGetEventConst packet i)) =
              length (snd (caerSpikeEventPacketGetEvent packet i)))
    by (intros i; apply get_event_const_agrees).
  split; [intros i; apply get_event_const_agrees|]. split.
  - eexists _, _, _.
    unfold CAER_SPIKE_ITERATOR_ALL, CAER_SPIKE_CONST_ITERATOR_ALL.
    rewrite !(all_forward_loop _ body packet Hreads Hmax
                (Z.to_nat (eventNumber (packetHeader packet)))) by lia.
    rewrite (fold_left_pointwise _ _ _ Hsame).
    split; [reflexivity|]. split; [reflexivity|]. split; [reflexivity|].
    cbn [app]. now apply messages_at_length.
  - eexists _, _, _.
    unfold CAER_SPIKE_REVERSE_ITERATOR_ALL, CAER_SPIKE_CONST_REVERSE_ITERATOR_ALL,
      caerEventPacketHeaderGetEventNumber.
    unfold INT32_MAX in Hn.
    rewrite I32T_small by (unfold is_int32; lia).
    rewrite !(all_reverse_loop _ body packet Hreads Hmax
                (Z.to_nat (eventNumber (packetHeader packet)))) by lia.
    rewrite (fold_left_pointwise _ _ _ Hsame).
    split; [reflexivity|]. split; [reflexivity|]. split; [reflexivity|].
    cbn [app]. now apply messages_at_length.
Qed.

Lemma const_traversal_agrees_witness :
  exists final msgs msgs',
    CAER_SPIKE_ITERATOR_ALL visit_element 4
      {| packetHeader := {| eventType := 12; eventSource := 1; eventTSOverflow := 0;
                            eventCapacity := 1; eventNumber := 3; eventValid := 1 |};
         events := [ {| data := 1; timestamp := 3 |} ] |} [] = Finished (final, msgs) /\
    CAER_SPIKE_CONST_ITERATOR_ALL visit_element 4
      {| packetHeader := {| eventType := 12; eventSource := 1; eventTSOverflow := 0;
                            eventCapacity := 1; eventNumber := 3; eventValid := 1 |};
         events := [ {| data := 1; timestamp := 3 |} ] |} [] = Finished (final, msgs') /\
    fst final =
      {| packetHeader := {| eventType := 12; eventSource := 1; eventTSOverflow := 0;
                            eventCapacity := 1; eventNumber := 3; eventValid := 1 |};
         events := [ {| data := 1; timestamp := 3 |} ] |} /\
    length msgs' = length msgs.
Proof.
  refine (proj1 (proj2
           (const_traversal_agrees (list (Z * caerSpikeEvent)) visit_element
              {| packetHeader := {| eventType := 12; eventSource := 1; eventTSOverflow := 0;
                                    eventCapacity := 1; eventNumber := 3; eventValid := 1 |};
                 events := [ {| data := 1; timestamp := 3 |} ] |} 4 [] _ _ _))).
  - reflexivity.
  - unfold INT32_MAX; simpl; lia.
  - simpl; lia.
Defined.

Section TraversalBeyondCapacity.
Variable host : endianness.
Context {A : Type}.
Variable body : Z -> nat -> caer_spike_event_packet * A -> caer_spike_event_packet * A.
Variable packet : caer_spike_event_packet.

Hypothesis body_reads : forall c ptr st, fst (body c ptr st) = fst st.
Hypothesis array : Z.of_nat (length (events packet)) = eventCapacity (packetHeader packet).
Hypothesis count_beyond :
  eventCapacity (packetHeader packet) < eventNumber (packetHeader packet) <= INT32_MAX.

Lemma round_in_capacity (c : Z) (a : A) :
  0 <= c < eventCapacity (packetHeader packet) ->
  exists a', iterator_valid_body host body c (packet, a) = Some (packet, a').
Proof.
  intros Hc. unfold iterator_valid_body. cbn [fst].
  rewrite get_event_in by assumption. cbn [fst].
  destruct (lookup_lt_is_Some_2 (events packet) (Z.to_nat c)) as [e He]; [lia|].
  rewrite He. destruct (caerSpikeEventIsValid host e); cbn [negb]; [|eauto].
  exists (snd (body c (Z.to_nat c) (packet, a))). f_equal.
  rewrite (surjective_pairing (body c (Z.to_nat c) (packet, a))).
  now rewrite body_reads.
Qed.

Lemma round_at_null (c : Z) (a : A) :
  ~ 0 <= c < eventCapacity (packetHeader packet) ->
  iterator_valid_body host body c (packet, a) = None.
Proof.
  intros Hc. unfold iterator_valid_body. cbn [fst].
  now rewrite get_event_out by assumption.
Qed.

Lemma forward_loop_fault (m : nat) :
  forall (fuel : nat) (c : Z) (a : A),
    0 <= c -> c + Z.of_nat m = eventCapacity (packetHeader packet) -> (m < fuel)%nat ->
    iterator_valid_loop host body fuel c (packet, a) = Fault.
Proof.
  unfold INT32_MAX in count_beyond.
  induction m as [|m IH]; intros fuel c a Hc Hn Hfuel;
    (destruct fuel as [|fuel]; [lia|]);
    cbn [iterator_valid_loop fst]; unfold caerEventPacketHeaderGetEventNumber;
    (destruct (Z.ltb_spec c (eventNumber (packetHeader packet))); [|lia]).
  - now rewrite round_at_null by lia.
  - destruct (round_in_capacity c a) as [a' ->]; [lia|].
    rewrite I32T_small by (unfold is_int32; lia).
    apply IH; lia.
Qed.

End TraversalBeyondCapacity.

(** X15.  The traversals of the valid events do not survive an eventCount
    above the capacity: in a packet made of a header and [eventCapacity]
    records whose eventCount (an [int32_t]) is above the capacity, for a loop
    body that leaves the packet alone, the forward loop reaches the index
    [eventCapacity], for which the accessor returns [NULL], and
    [caerSpikeEventIsValid] dereferences it; the reverse loop does so in its
    first round. *)
Theorem valid_traversal_beyond_capacity
    (host : endianness) (A : Type)
    (body : Z -> nat -> caer_spike_event_packet * A -> caer_spike_event_packet * A)
    (packet : caer_spike_event_packet) (fuel : nat) (a : A) :
  (forall c ptr st, fst (body c ptr st) = fst st) ->
  Z.of_nat (length (events packet)) = eventCapacity (packetHeader packet) ->
  eventCapacity (packetHeader packet) < eventNumber (packetHeader packet) <= INT32_MAX ->
  (length (events packet) < fuel)%nat ->
  CAER_SPIKE_ITERATOR_VALID host body fuel packet a = Fault /\
  CAER_SPIKE_REVERSE_ITERATOR_VALID host body fuel packet a = Fault /\
  fst (caerSpikeEventPacketGetEvent packet (eventCapacity (packetHeader packet))) = None.
Proof.
  intros Hreads Harray Hcount Hfuel. split; [|split].
  - unfold CAER_SPIKE_ITERATOR_VALID.
    apply (forward_loop_fault host body packet Hreads Harray Hcount (length (events packet)));
      lia.
  - unfold CAER_SPIKE_REVERSE_ITERATOR_VALID, caerEventPacketHeaderGetEventNumber.
    unfold INT32_MAX in Hcount.
    rewrite I32T_small by (unfold is_int32; lia).
    destruct fuel as [|fuel]; [lia|]. cbn [reverse_iterator_valid_loop].
    destruct (Z.geb_spec (eventNumber (packetHeader packet) - 1) 0); [|lia].
    now rewrite round_at_null by lia.
  - now rewrite get_event_out by lia.
Qed.

Lemma valid_traversal_beyond_capacity_witness :
  exists packet : caer_spike_event_packet,
    run_ops LittleEndian [Validate 0; Invalidate 0; Validate 0] (zeroed_packet 12 0 0 1) =
      Some (packet, []) /\
    CAER_SPIKE_ITERATOR_VALID LittleEndian visit 2 packet [] = Fault /\
    CAER_SPIKE_REVERSE_ITERATOR_VALID LittleEndian visit 2 packet [] = Fault.
Proof.
  eexists. split; [reflexivity|].
  refine (let H := valid_traversal_beyond_capacity LittleEndian (list Z) visit _ 2 [] _ _ _ _
          in conj (proj1 H) (proj1 (proj2 H))).
  - reflexivity.
  - reflexivity.
  - vm_compute. split; [reflexivity | discriminate].
  - vm_compute. lia.
Defined.

Section InvalidateAll.
Variable host : endianness.

Lemma invalidate_round (q : caer_spike_event_packet) (c : Z) :
  consistent host q -> 0 <= c < eventNumber (packetHeader q) ->
  exists q',
    iterator_valid_body host (invalidate_visited host) c (q, []) = Some (q', []) /\
    consistent host q' /\
    eventNumber (packetHeader q') = eventNumber (packetHeader q) /\
    forall i : nat, is_valid_at host q' i =
                    if decide (i = Z.to_nat c) then false else is_valid_at host q i.
Proof.
  intros Hq Hc.
  pose proof Hq as ((Hlen & Hcap) & Hinv & Hun).
  pose proof Hinv as (_ & _ & Hnc & _).
  unfold iterator_valid_body. cbn [fst].
  rewrite get_event_in by lia. cbn [fst].
  destruct (lookup_lt_is_Some_2 (events q) (Z.to_nat c)) as [e He]; [lia|].
  rewrite He. destruct (caerSpikeEventIsValid host e) eqn:Hv; cbn [negb].
  - unfold invalidate_visited. cbn [fst snd].
    rewrite (run_invalidate host q (Z.to_nat c) e He), Hv. cbn [app].
    eexists. split; [reflexivity|]. split; [|split].
    + apply invalidate_consistent; assumption.
    + reflexivity.
    + intros i. destruct q as [h evs]. cbn [events packetHeader] in *.
      rewrite (is_valid_at_insert host h) by (eapply lookup_lt_Some; eauto).
      now rewrite unmarked_is_invalid.
  - exists q. split; [reflexivity|]. split; [exact Hq|].
    split; [reflexivity|].
    intros i. destruct (decide (i = Z.to_nat c)) as [->|]; [|reflexivity].
    unfold is_valid_at. now rewrite He.
Qed.

Lemma invalidate_loop (n : Z) (m : nat) :
  forall (fuel : nat) (c : Z) (q : caer_spike_event_packet),
    consistent host q -> eventNumber (packetHeader q) = n ->
    0 <= c -> c + Z.of_nat m = n -> (m < fuel)%nat ->
    (forall i : nat, (i < Z.to_nat c)%nat -> is_valid_at host q i = false) ->
    exists q',
      iterator_valid_loop host (invalidate_visited host) fuel c (q, []) = Finished (q', []) /\
      consistent host q' /\ eventNumber (packetHeader q') = n /\
      forall i : nat, (i < Z.to_nat n)%nat -> is_valid_at host q' i = false.
Proof.
  induction m as [|m IH]; intros fuel c q Hq Hn Hc Hm Hfuel Hdone;
    (destruct fuel as [|fuel]; [lia|]);
    cbn [iterator_valid_loop fst]; unfold caerEventPacketHeaderGetEventNumber.
  - destruct (Z.ltb_spec c (eventNumber (packetHeader q))); [lia|].
    exists q. split; [reflexivity|]. split; [exact Hq|]. split; [exact Hn|].
    intros i Hi. apply Hdone. lia.
  - destruct (Z.ltb_spec c (eventNumber (packetHeader q))); [|lia].
    destruct (invalidate_round q c Hq) as (q1 & -> & Hq1 & Hn1 & Hat1); [lia|].
    assert (Hmax : n <= 0x7FFFFFFF).
    { destruct Hq as ((_ & Hcap) & (_ & _ & Hnc & _) & _). unfold INT32_MAX in Hcap. lia. }
    rewrite I32T_small by (unfold is_int32; lia).
    apply IH; try lia; try assumption.
    intros i Hi. rewrite Hat1. destruct (decide (i = Z.to_nat c)); [reflexivity|].
    apply Hdone. lia.
Qed.

Lemma all_invalid_sum (evs : list caer_spike_event) (k : nat) :
  (forall i e, (i < k)%nat -> evs !! i = Some e -> caerSpikeEventIsValid host e = false) ->
  valid_sum host k evs = 0.
Proof.
  revert evs. induction k as [|k IH]; intros evs Hall; [reflexivity|].
  destruct evs as [|e evs]; [reflexivity|].
  unfold valid_sum. cbn [take foldr].
  fold (valid_sum host k evs). rewrite IH.
  - unfold validity_bit. now rewrite (Hall 0%nat e) by (cbn; auto; lia).
  - intros i x Hi Hx. apply (Hall (S i) x); [lia | exact Hx].
Qed.

End InvalidateAll.

(** X16.  Invalidating every event that the forward traversal of the valid
    events visits empties the packet, and keeps its bookkeeping exact.  For a
    packet made of a header and [eventCapacity] records in which the
    bookkeeping invariant holds and the records from eventCount on are
    invalid, and a bound above eventCount on the rounds: the loop ends and
    has logged nothing, no record of the packet is valid afterwards,
    eventValid is 0, eventCount is as before, and the invariant still
    holds. *)
Theorem invalidate_every_valid_event
    (host : endianness) (packet : caer_spike_event_packet) (fuel : nat) :
  packet_wf packet -> bookkeeping_invariant host packet -> unused_invalid host packet ->
  (Z.to_nat (eventNumber (packetHeader packet)) < fuel)%nat ->
  exists packet' : caer_spike_event_packet,
    CAER_SPIKE_ITERATOR_VALID host (invalidate_visited host) fuel packet [] =
      Finished (packet', []) /\
    (forall i : nat, is_valid_at host packet' i = false) /\
    eventValid (packetHeader packet') = 0 /\
    eventNumber (packetHeader packet') = eventNumber (packetHeader packet) /\
    packet_wf packet' /\ bookkeeping_invariant host packet' /\ unused_invalid host packet'.
Proof.
  intros Hwf Hinv Hun Hfuel.
  pose proof Hinv as (Hv0 & Hvn & Hnc & _).
  assert (Hc : consistent host packet) by (unfold consistent; auto).
  destruct (invalidate_loop host (eventNumber (packetHeader packet))
              (Z.to_nat (eventNumber (packetHeader packet))) fuel 0 packet Hc eq_refl)
    as (q & Hrun & Hq & Hn & Hall); try lia.
  exists q. split; [exact Hrun|].
  assert (Hnone : forall i : nat, is_valid_at host q i = false).
  { intros i. destruct (decide (i < Z.to_nat (eventNumber (packetHeader packet)))%nat)
      as [Hlt|Hge]; [now apply Hall|].
    unfold is_valid_at. destruct (events q !! i) as [e|] eqn:He; [|reflexivity].
    destruct Hq as (_ & _ & Hunq).
    apply (unused_lookup host q i e Hunq); [rewrite Hn; lia | exact He]. }
  destruct Hq as (Hwfq & Hinvq & Hunq).
  split; [exact Hnone|]. split; [|auto].
  destruct Hinvq as (_ & _ & _ & Hsum). rewrite Hsum.
  apply all_invalid_sum. intros i e _ He.
  specialize (Hnone i). unfold is_valid_at in Hnone. now rewrite He in Hnone.
Qed.

Lemma invalidate_every_valid_event_witness :
  exists packet' : caer_spike_event_packet,
    CAER_SPIKE_ITERATOR_VALID BigEndian (invalidate_visited BigEndian) 3
      {| packetHeader := {| eventType := 12; eventSource := 1; eventTSOverflow := 0;
                            eventCapacity := 3; eventNumber := 2; eventValid := 1 |};
         events := [ zero_event; {| data := 0x87500000; timestamp := 3 |}; zero_event ] |} [] =
      Finished (packet', []) /\
    (forall i : nat, is_valid_at BigEndian packet' i = false) /\
    eventValid (packetHeader packet') = 0 /\
    eventNumber (packetHeader packet') = 2 /\
    packet_wf packet' /\ bookkeeping_invariant BigEndian packet' /\
    unused_invalid BigEndian packet'.
Proof.
  refine (invalidate_every_valid_event BigEndian
            {| packetHeader := {| eventType := 12; eventSource := 1; eventTSOverflow := 0;
                                  eventCapacity := 3; eventNumber := 2; eventValid := 1 |};
               events := [ zero_event; {| data := 0x87500000; timestamp := 3 |};
                           zero_event ] |} 3 _ _ _ _).
  - split; [reflexivity | unfold INT32_MAX; simpl; lia].
  - unfold bookkeeping_invariant; simpl. repeat split; try lia; reflexivity.
  - unfold unused_invalid; simpl. repeat constructor.
  - simpl. lia.
Defined.

(** * Filling the next free record *)

Lemma setters_keep_validity (host : endianness) (event : caer_spike_event) (v : Z) :
  caerSpikeEventIsValid host (caerSpikeEventSetSourceCoreID host event v) =
    caerSpikeEventIsValid host event /\
  caerSpikeEventIsValid host (caerSpikeEventSetChipID host event v) =
    caerSpikeEventIsValid host event /\
  caerSpikeEventIsValid host (caerSpikeEventSetNeuronID host event v) =
    caerSpikeEventIsValid host event.
Proof.
  unfold caerSpikeEventIsValid, caerSpikeEventSetSourceCoreID, caerSpikeEventSetChipID,
    caerSpikeEventSetNeuronID; cbn [data].
  masks_as_ones. now rewrite !get_other_field by lia.
Qed.

Lemma replace_invalid_consistent (host : endianness)
    (packet : caer_spike_event_packet) (i : nat) (e e1 : caer_spike_event) :
  consistent host packet -> events packet !! i = Some e ->
  caerSpikeEventIsValid host e = false -> caerSpikeEventIsValid host e1 = false ->
  consistent host {| packetHeader := packetHeader packet;
                     events := <[i := e1]> (events packet) |}.
Proof.
  intros ((Hlen & Hcap) & (Hv0 & Hvn & Hnc & Hsum) & Hun) He Hinv Hinv1.
  destruct packet as [h evs]. cbn [packetHeader events] in *.
  assert (Hb : validity_bit host e = 0) by (unfold validity_bit; now rewrite Hinv).
  assert (Hb1 : validity_bit host e1 = 0) by (unfold validity_bit; now rewrite Hinv1).
  split; [|split].
  - split; cbn [packetHeader events]; [now rewrite length_insert | exact Hcap].
  - unfold bookkeeping_invariant. cbn [packetHeader events].
    repeat split; try assumption.
    destruct (decide (i < Z.to_nat (eventNumber h))%nat).
    + rewrite (valid_sum_insert_lt host _ i evs e) by assumption. lia.
    + rewrite valid_sum_insert_ge by lia. assumption.
  - unfold unused_invalid in *. cbn [packetHeader events] in *.
    destruct (decide (i < Z.to_nat (eventNumber h))%nat).
    + now rewrite drop_insert_lt by lia.
    + rewrite drop_insert_ge by lia. now apply Forall_insert.
Qed.

(** X17.  Filling the next free record.  Take a packet made of a header and
    [eventCapacity] records in which the bookkeeping invariant holds, the
    records from eventCount on are invalid and eventCount is below the
    capacity.  [caerSpikeEventPacketGetEvent] at index eventCount returns the
    pointer to that record; after [caerSpikeEventSetTimestamp] and the three
    sub-field setters with values in range, [caerSpikeEventValidate] logs
    nothing, eventCount and eventValid are one more, the record is valid and
    its getters return the values set, and the packet is again as
    described. *)
Theorem fill_next_record
    (host : endianness) (packet : caer_spike_event_packet) (event : caer_spike_event)
    (coreId chipId neuronId ts : Z) :
  let n := eventNumber (packetHeader packet) in
  packet_wf packet -> bookkeeping_invariant host packet -> unused_invalid host packet ->
  n < eventCapacity (packetHeader packet) ->
  events packet !! Z.to_nat n = Some event ->
  0 <= coreId <= 31 -> 0 <= chipId <= 63 -> 0 <= neuronId <= 2 ^ 20 - 1 ->
  0 <= ts <= INT32_MAX ->
  let filled :=
    caerSpikeEventSetNeuronID host
      (caerSpikeEventSetChipID host
         (caerSpikeEventSetSourceCoreID host
            (fst (caerSpikeEventSetTimestamp host event ts)) coreId) chipId) neuronId in
  caerSpikeEventPacketGetEvent packet n = (Some (Z.to_nat n), []) /\
  snd (caerSpikeEventSetTimestamp host event ts) = [] /\
  exists (packet' : caer_spike_event_packet) (event' : caer_spike_event),
    run_op host (Validate (Z.to_nat n))
      {| packetHeader := packetHeader packet;
         events := <[Z.to_nat n := filled]> (events packet) |} = Some (packet', []) /\
    eventNumber (packetHeader packet') = n + 1 /\
    eventValid (packetHeader packet') = eventValid (packetHeader packet) + 1 /\
    events packet' !! Z.to_nat n = Some event' /\
    caerSpikeEventIsValid host event' = true /\
    caerSpikeEventGetSourceCoreID host event' = coreId /\
    caerSpikeEventGetChipID host event' = chipId /\
    caerSpikeEventGetNeuronID host event' = neuronId /\
    caerSpikeEventGetTimestamp host event' = ts /\
    packet_wf packet' /\ bookkeeping_invariant host packet' /\ unused_invalid host packet'.
Proof.
  intros n Hwf Hinv Hun Hroom He Hcore Hchip Hneuron Hts filled.
  pose proof Hwf as [Hlen Hcap]. pose proof Hinv as (Hv0 & Hvn & Hnc & Hsum).
  unfold INT32_MAX in *.
  assert (Hn0 : 0 <= n) by (subst n; lia).
  assert (Hold : caerSpikeEventIsValid host event = false)
    by (apply (unused_lookup host packet (Z.to_nat n) event Hun); [subst n; lia | exact He]).
  assert (Hset : caerSpikeEventSetTimestamp host event ts =
                   ({| data := data event; timestamp := I32T (htole32 host ts) |}, [])).
  { unfold caerSpikeEventSetTimestamp. destruct (Z.ltb_spec ts 0); [lia | reflexivity]. }
  assert (Hfilled : caerSpikeEventIsValid host filled = false).
  { subst filled.
    rewrite (proj2 (proj2 (setters_keep_validity host _ neuronId))).
    rewrite (proj1 (proj2 (setters_keep_validity host _ chipId))).
    rewrite (proj1 (setters_keep_validity host _ coreId)).
    rewrite Hset. cbn [fst]. rewrite <- Hold. reflexivity. }
  assert (Hgetters :
    caerSpikeEventGetSourceCoreID host filled = coreId /\
    caerSpikeEventGetChipID host filled = chipId /\
    caerSpikeEventGetNeuronID host filled = neuronId /\
    caerSpikeEventGetTimestamp host filled = ts).
  { subst filled. rewrite Hset. cbn [fst].
    unfold caerSpikeEventGetSourceCoreID, caerSpikeEventGetChipID,
      caerSpikeEventGetNeuronID, caerSpikeEventGetTimestamp,
      caerSpikeEventSetSourceCoreID, caerSpikeEventSetChipID,
      caerSpikeEventSetNeuronID; cbn [data timestamp].
    subfield_masks.
    repeat first [rewrite get_written_field by lia | rewrite get_other_field by lia].
    rewrite !U8T_small by lia. rewrite U32T_small by (unfold is_uint32; lia).
    repeat split.
    rewrite le32toh_I32T, le32toh_htole32.
    rewrite U32T_small by (unfold is_uint32; lia).
    apply I32T_small. unfold is_int32. lia. }
  split; [apply get_event_in; subst n; lia|]. split; [now rewrite Hset|].
  set (p1 := {| packetHeader := packetHeader packet;
                events := <[Z.to_nat n := filled]> (events packet) |}).
  assert (Hlt : (Z.to_nat n < length (events packet))%nat) by (subst n; lia).
  assert (Hp1 : consistent host p1).
  { apply (replace_invalid_consistent host packet (Z.to_nat n) event filled);
      [unfold consistent; auto | assumption | assumption | assumption]. }
  assert (He1 : events p1 !! Z.to_nat n = Some filled)
    by (now apply list_lookup_insert_eq).
  rewrite (run_validate host p1 (Z.to_nat n) filled He1), Hfilled.
  destruct (validate_consistent host p1 (Z.to_nat n) filled Hp1 He1 Hfilled)
    as (Hwf' & Hinv' & Hun'); [cbn; subst n; lia | cbn; subst n; lia |].
  destruct (marked_same_but_validity host filled) as (_ & Hc & Hh & Hne & _ & Ht).
  destruct Hgetters as (Hg1 & Hg2 & Hg3 & Hg4).
  eexists _, (marked host filled). split; [reflexivity|].
  cbn [packetHeader events counted eventNumber eventValid].
  split; [apply I32T_small; unfold is_int32; subst n; lia|].
  split; [apply I32T_small; unfold is_int32; subst n; lia|].
  split; [apply list_lookup_insert_eq; eapply lookup_lt_Some; exact He1|].
  split; [apply marked_is_valid|].
  split; [congruence|]. split; [congruence|]. split; [congruence|]. split; [congruence|].
  split; [exact Hwf'|]. split; [exact Hinv' | exact Hun'].
Qed.

Lemma fill_next_record_witness :
  exists (packet' : caer_spike_event_packet) (event' : caer_spike_event),
    run_op BigEndian (Validate 0)
      {| packetHeader := packetHeader (zeroed_packet 12 0 0 2);
         events := <[0%nat :=
                      caerSpikeEventSetNeuronID BigEndian
                        (caerSpikeEventSetChipID BigEndian
                           (caerSpikeEventSetSourceCoreID BigEndian
                              (fst (caerSpikeEventSetTimestamp BigEndian zero_event 1000)) 3)
                           2) 5]> (events (zeroed_packet 12 0 0 2)) |} = Some (packet', []) /\
    eventNumber (packetHeader packet') = 0 + 1 /\
    eventValid (packetHeader packet') = 0 + 1 /\
    events packet' !! 0%nat = Some event' /\
    caerSpikeEventIsValid BigEndian event' = true /\
    caerSpikeEventGetSourceCoreID BigEndian event' = 3 /\
    caerSpikeEventGetChipID BigEndian event' = 2 /\
    caerSpikeEventGetNeuronID BigEndian event' = 5 /\
    caerSpikeEventGetTimestamp BigEndian event' = 1000 /\
    packet_wf packet' /\ bookkeeping_invariant BigEndian packet' /\
    unused_invalid BigEndian packet'.
Proof.
  refine (proj2 (proj2 (fill_next_record BigEndian (zeroed_packet 12 0 0 2) zero_event
                          3 2 5 1000 _ _ _ _ eq_refl _ _ _ _))).
  - split; [reflexivity | unfold INT32_MAX; simpl; lia].
  - unfold bookkeeping_invariant; simpl. repeat split; try lia; reflexivity.
  - unfold unused_invalid; simpl. repeat constructor.
  - simpl. lia.
  - lia.
  - lia.
  - lia.
  - unfold INT32_MAX. lia.
Defined.
